(** * INPGraph: bounds on the independence number and the difficulty verdict

    A shallow embedding of [inp.py] (class [INPGraph], a subclass of Sage's
    [Graph]) and the properties of its classifier, its closed-form bounds,
    its relaxation adapters and its critical-independent-set routine. *)

From Stdlib Require Import String.
From Stdlib Require Import List ZArith QArith Qround Bool Lia Lqa Permutation Sorted.
From Equations Require Import Equations.
Import ListNotations.
Local Open Scope Z_scope.

(** ** Python outcomes: a value or a raised exception *)

Inductive exn : Type :=
| ValueError
| AttributeError (name : string)
| IndexError
| TypeError
| MIPSolverException
| ArithmeticError.

Inductive result (A : Type) : Type :=
| Ok (a : A)
| Raise (e : exn).
Arguments Ok {A} a.
Arguments Raise {A} e.

Definition bind {A B} (r : result A) (k : A -> result B) : result B :=
  match r with
  | Ok a => k a
  | Raise e => Raise e
  end.

Notation "x <- r ;; k" := (bind r (fun x => k))
  (at level 61, r at next level, right associativity).

Definition exn_is_ValueError (e : exn) : bool :=
  match e with ValueError => true | _ => false end.

(** ** Vertex labels and graphs

    Sage vertices are hashable Python values; the code uses integers and,
    in the tensor product, pairs. *)

Inductive label : Type :=
| LInt (z : Z)
| LPair (a b : label).

Fixpoint label_eqb (x y : label) : bool :=
  match x, y with
  | LInt a, LInt b => Z.eqb a b
  | LPair a1 b1, LPair a2 b2 => label_eqb a1 a2 && label_eqb b1 b2
  | _, _ => false
  end.

Definition mem (x : label) (l : list label) : bool := existsb (label_eqb x) l.

(** A simple undirected graph: the vertices in Sage's iteration order and
    the edges as unordered pairs. *)
Record graph : Type := Graph {
  vertices : list label;
  edges : list (label * label)
}.

Definition joins (u v : label) (e : label * label) : bool :=
  (label_eqb (fst e) u && label_eqb (snd e) v)
  || (label_eqb (fst e) v && label_eqb (snd e) u).

Definition has_edge (g : graph) (u v : label) : bool :=
  existsb (joins u v) (edges g).

(** [wf g]: the invariant of a simple Sage graph: distinct vertices, no
    loop, every edge between two vertices of the graph. *)
Definition wf (g : graph) : Prop :=
  NoDup (vertices g)
  /\ (forall u v, In (u, v) (edges g) ->
        u <> v /\ In u (vertices g) /\ In v (vertices g)).

Definition order (g : graph) : Z := Z.of_nat (length (vertices g)).
Definition size (g : graph) : Z := Z.of_nat (length (edges g)).

Definition neighbors (g : graph) (v : label) : list label :=
  filter (has_edge g v) (vertices g).

Definition degree_of (g : graph) (v : label) : Z :=
  Z.of_nat (length (neighbors g v)).

(** [self.degree()]: the degrees in vertex order. *)
Definition degree (g : graph) : list Z := map (degree_of g) (vertices g).

(** Python's [sorted] and [list.sort] on integers. *)
Fixpoint insert_asc (x : Z) (l : list Z) : list Z :=
  match l with
  | [] => [x]
  | y :: l' => if x <=? y then x :: l else y :: insert_asc x l'
  end.

Definition sorted (l : list Z) : list Z := fold_right insert_asc [] l.

Fixpoint insert_desc (x : Z) (l : list Z) : list Z :=
  match l with
  | [] => [x]
  | y :: l' => if y <=? x then x :: l else y :: insert_desc x l'
  end.

Definition sort_reverse (l : list Z) : list Z := fold_right insert_desc [] l.

(** [self.degree_sequence()]: the degrees, largest first. *)
Definition degree_sequence (g : graph) : list Z := sort_reverse (degree g).

Definition sum (l : list Z) : Z := fold_right Z.add 0 l.

(** Python's [max] and [min] of a list: [ValueError] on the empty list. *)
Definition py_max (l : list Z) : result Z :=
  match l with
  | [] => Raise ValueError
  | x :: l' => Ok (fold_left Z.max l' x)
  end.

Definition py_min (l : list Z) : result Z :=
  match l with
  | [] => Raise ValueError
  | x :: l' => Ok (fold_left Z.min l' x)
  end.

Definition max_degree (g : graph) : result Z := py_max (degree g).
Definition min_degree (g : graph) : result Z := py_min (degree g).

(** [self.matching(value_only=True)]: the size of a largest set of
    pairwise disjoint edges, by exhaustive search over the edge list;
    [used] holds the end points already matched. *)
Fixpoint max_matching (es : list (label * label)) (used : list label) : nat :=
  match es with
  | [] => O
  | (u, v) :: es' =>
      let without := max_matching es' used in
      if mem u used || mem v used || label_eqb u v then without
      else Nat.max without (S (max_matching es' (u :: v :: used)))
  end.

Definition matching_number (g : graph) : Z :=
  Z.of_nat (max_matching (edges g) []).

(** ** Closed-form bounds

    Every bound and property method is a [method]: it returns a number (a
    Python [True] or [False] being the integers 1 and 0) or raises.  Sage
    keeps a rational in lowest terms ([Qred]). *)

Definition method : Type := graph -> result Q.

Definition py_bool (b : bool) : Q := if b then 1%Q else 0%Q.
Definition truthy (q : Q) : bool := negb (Qeq_bool q 0).

Definition Qltb (x y : Q) : bool :=
  (Qnum x * Z.pos (Qden y) <? Qnum y * Z.pos (Qden x)).

Definition matching_lower_bound : method :=
  fun self => Ok (inject_Z (order self - 2 * matching_number self)).

Definition matching_upper_bound : method :=
  fun self => Ok (inject_Z (order self - matching_number self)).

Definition min_degree_bound : method :=
  fun self => delta <- min_degree self ;; Ok (inject_Z (order self - delta)).

(** One pass of the loop of [residue], after [d = seq.pop(0)]: the first
    [d] entries of what is left are decremented and the list is sorted
    again, largest first. *)
Definition residue_step (d : Z) (seq : list Z) : list Z :=
  sort_reverse (map (fun k => k - 1) (firstn (Z.to_nat d) seq)
                ++ skipn (Z.to_nat d) seq).

(** The [while seq[0] > 0] loop; [seq[0]] on an empty list is an
    [IndexError]. *)
Equations residue_loop (seq : list Z) : result Z by wf (length seq) lt :=
  residue_loop [] := Raise IndexError;
  residue_loop (d :: seq') with (0 <? d) := {
    | true => residue_loop (residue_step d seq')
    | false => Ok (Z.of_nat (length (d :: seq'))) }.
Next Obligation.
  assert (Hins : forall x l, length (insert_desc x l) = S (length l)).
  { intros x l. induction l as [|y l IH]; simpl; [reflexivity|].
    destruct (y <=? x); simpl; congruence. }
  assert (Hsort : forall l, length (sort_reverse l) = length l).
  { induction l as [|x l IH]; simpl; [reflexivity|].
    rewrite Hins; congruence. }
  unfold residue_step.
  rewrite Hsort, length_app, length_map, <- length_app, firstn_skipn.
  simpl; lia.
Qed.

Definition residue_Z (self : graph) : result Z :=
  residue_loop (degree_sequence self).

Definition residue : method :=
  fun self => r <- residue_Z self ;; Ok (inject_Z r).

Definition kwok : method :=
  fun self =>
    let n := order self in
    let e := size self in
    Delta <- max_degree self ;;
    if Delta =? 0 then Raise ValueError
    else Ok (Qred (inject_Z n - inject_Z e / inject_Z Delta)).

Definition borg : method :=
  fun self =>
    let n := order self in
    Delta <- max_degree self ;;
    if Delta =? 0 then Raise ValueError
    else Ok (inject_Z (n - Qceiling (inject_Z (n - 1) / inject_Z Delta))).

(** The test of the [while] loop of [annihilation_number]:
    [a <= n and sum(seq[:a]) <= sum(seq[a:])]. *)
Definition annihilation_cond (seq : list Z) (n a : Z) : bool :=
  (a <=? n)
  && (sum (firstn (Z.to_nat a) seq) <=? sum (skipn (Z.to_nat a) seq)).

(** The loop: [a] is advanced as long as the test holds. *)
Equations annihilation_loop (seq : list Z) (n a : Z) : Z
  by wf (Z.to_nat (n + 1 - a)) lt :=
  annihilation_loop seq n a
    with Sumbool.sumbool_of_bool (annihilation_cond seq n a) := {
    | left _ => annihilation_loop seq n (a + 1)
    | right _ => a }.
Next Obligation.
  unfold annihilation_cond in e.
  apply andb_prop in e as [H _]. apply Z.leb_le in H. lia.
Qed.

Definition annihilation_number_Z (self : graph) : Z :=
  let seq := sorted (degree self) in
  let n := order self in
  annihilation_loop seq n 1.

Definition annihilation_number : method :=
  fun self => Ok (inject_Z (annihilation_number_Z self)).

(** ** Alpha properties *)

Definition has_max_degree_order_minus_one : method :=
  fun self =>
    Delta <- max_degree self ;; Ok (py_bool (Delta =? order self - 1)).

Definition has_pendant_vertex : method :=
  fun self => Ok (py_bool (existsb (Z.eqb 1) (degree self))).

(** ** The critical independent set engine *)

Definition K2_sides : list label := [LInt 0; LInt 1].

(** [self.tensor_product(graphs.CompleteGraph(2))]: the vertices are the
    pairs [(v, i)], and every edge [u - w] of the graph gives the two edges
    [(u,0) - (w,1)] and [(u,1) - (w,0)]. *)
Definition bipartite_double_cover (self : graph) : graph :=
  Graph
    (flat_map (fun v => map (LPair v) K2_sides) (vertices self))
    (flat_map (fun e => [ (LPair (fst e) (LInt 0), LPair (snd e) (LInt 1));
                          (LPair (fst e) (LInt 1), LPair (snd e) (LInt 0)) ])
              (edges self)).

(** [list(set(l))]: the distinct elements (the order Python gives them in
    is not fixed; here the first occurrences are kept). *)
Fixpoint list_set (l : list label) : list label :=
  match l with
  | [] => []
  | x :: l' => if mem x l' then list_set l' else x :: list_set l'
  end.

(** The argument of [closed_neighborhood]: a list of vertices, or one. *)
Inductive verts_arg : Type :=
| VertList (vs : list label)
| OneVert (v : label).

Definition closed_neighborhood (self : graph) (verts : verts_arg) : list label :=
  match verts with
  | VertList vs => list_set (flat_map (fun v => v :: neighbors self v) vs)
  | OneVert v => v :: neighbors self v
  end.

(** [delete_vertices]: the vertices and every edge at one of them go. *)
Definition delete_vertices (g : graph) (vs : list label) : graph :=
  Graph
    (filter (fun v => negb (mem v vs)) (vertices g))
    (filter (fun e => negb (mem (fst e) vs) && negb (mem (snd e) vs)) (edges g)).

(** Graph objects live in a store; a variable holds a reference.  [copy]
    allocates a new object, [delete_vertices] changes one in place. *)
Definition loc : Type := nat.
Definition store : Type := list graph.

Definition empty_graph : graph := Graph [] [].

Definition deref (h : store) (l : loc) : graph := nth l h empty_graph.

Definition alloc (g : graph) (h : store) : loc * store :=
  (length h, h ++ [g]).

Fixpoint assign (l : loc) (g : graph) (h : store) : store :=
  match h, l with
  | [], _ => []
  | _ :: h', O => g :: h'
  | x :: h', S l' => x :: assign l' g h'
  end.

Definition copy_obj (l : loc) (h : store) : loc * store := alloc (deref h l) h.

Definition delete_vertices_obj (l : loc) (vs : list label) (h : store) : store :=
  assign l (delete_vertices (deref h l) vs) h.

(** The body of the [for v in self.vertices()] loop of [union_MCIS]. *)
Definition union_MCIS_body (b : loc) (alpha : Z) (v : label)
    (st : list label * store) : list label * store :=
  let '(result, h) := st in
  let '(test, h1) := copy_obj b h in
  let h2 :=
    delete_vertices_obj test
      (closed_neighborhood (deref h1 b)
         (VertList [LPair v (LInt 0); LPair v (LInt 1)])) h1 in
  let alpha_test :=
    order (deref h2 test) - matching_number (deref h2 test) + 2 in
  if alpha_test =? alpha then (result ++ [v], h2) else (result, h2).

(** [union_MCIS] run on the object at [self] in store [h]: the list it
    returns and the store it leaves. *)
Definition union_MCIS_run (self : loc) (h : store) : list label * store :=
  let '(b, h1) := alloc (bipartite_double_cover (deref h self)) h in
  let alpha := order (deref h1 b) - matching_number (deref h1 b) in
  fold_left (fun st v => union_MCIS_body b alpha v st)
            (vertices (deref h1 self)) ([], h1).

(** The list [union_MCIS] returns for a graph, started from a store that
    holds only this graph. *)
Definition union_MCIS (self : graph) : list label :=
  fst (union_MCIS_run O [self]).

Definition has_nonempty_KE_part : method :=
  fun self =>
    Ok (py_bool (match union_MCIS self with [] => false | _ => true end)).

(** Graphs of the docstrings and tests. *)
Definition int_vertices (n : nat) : list label :=
  map (fun i => LInt (Z.of_nat i)) (seq 0 n).

Definition mk_graph (n : nat) (es : list (Z * Z)) : graph :=
  Graph (int_vertices n) (map (fun e => (LInt (fst e), LInt (snd e))) es).

Definition edgeless (n : nat) : graph := mk_graph n [].
Definition CompleteGraph3 : graph := mk_graph 3 [(0,1); (0,2); (1,2)].
Definition PathGraph3 : graph := mk_graph 3 [(0,1); (1,2)].
Definition StarGraph3 : graph := mk_graph 4 [(0,1); (0,2); (0,3)].
Definition CycleGraph4 : graph := mk_graph 4 [(0,1); (0,3); (1,2); (2,3)].
(** The complement of the 4-cycle: two disjoint edges. *)
Definition CycleGraph4_complement : graph := mk_graph 4 [(0,2); (1,3)].
(** The graph6 string [Cx]: 4 vertices, bits 111001 for the pairs
    01, 02, 12, 03, 13, 23: a triangle 0 1 2 and the edge 2 - 3. *)
Definition graph_Cx : graph := mk_graph 4 [(0,1); (0,2); (1,2); (2,3)].
Definition CycleGraph5 : graph :=
  mk_graph 5 [(0,1); (0,4); (1,2); (2,3); (3,4)].
Definition PathGraph4 : graph := mk_graph 4 [(0,1); (1,2); (2,3)].
Definition PetersenGraph : graph :=
  mk_graph 10 [(0,1); (0,4); (0,5); (1,2); (1,6); (2,3); (2,7); (3,4);
               (3,8); (4,9); (5,7); (5,8); (6,8); (6,9); (7,9)].

(** [INPGraph('...')] on a graph6 string, for fewer than 63 vertices: the
    first character is the order plus 63, every other character holds,
    plus 63, six bits of the upper triangle of the adjacency matrix read
    column by column: 01, 02, 12, 03, 13, 23, ... *)
Definition graph6_bits (data : list Ascii.ascii) : list bool :=
  flat_map (fun c => map (Nat.testbit (Ascii.nat_of_ascii c - 63))
                         [5; 4; 3; 2; 1; 0]%nat) data.

Definition graph6_pairs (n : nat) : list (Z * Z) :=
  flat_map (fun j => map (fun i => (Z.of_nat i, Z.of_nat j)) (seq 0 j))
           (seq 0 n).

Definition from_graph6 (s : string) : graph :=
  match list_ascii_of_string s with
  | [] => empty_graph
  | c :: data =>
      let n := (Ascii.nat_of_ascii c - 63)%nat in
      mk_graph n
        (map fst (filter snd (combine (graph6_pairs n) (graph6_bits data))))
  end.

(** ** Registries and classifier

    A class: its three registry lists and the numeric methods that an
    attribute lookup on one of its instances finds, by name. *)
Record klass : Type := Klass {
  lower_bounds : list method;      (* __lower_bounds *)
  upper_bounds : list method;      (* __upper_bounds *)
  alpha_properties : list method;  (* __alpha_properties *)
  attributes : list (string * method)
}.

Fixpoint lookup (name : string) (tbl : list (string * method)) : option method :=
  match tbl with
  | [] => None
  | (k, m) :: tbl' => if String.eqb k name then Some m else lookup name tbl'
  end.

(** [self.name()]: the attribute is looked up by its name, then called. *)
Definition call_attr (cls : klass) (self : graph) (name : string) : result Q :=
  match lookup name (attributes cls) with
  | Some m => m self
  | None => Raise (AttributeError name)
  end.

(** The class with other registry lists. *)
Definition with_registries (cls : klass) (lbs ubs aps : list method) : klass :=
  Klass lbs ubs aps (attributes cls).

(** A subclass that binds one more name. *)
Definition subclass (cls : klass) (name : string) (m : method) : klass :=
  Klass (lower_bounds cls) (upper_bounds cls) (alpha_properties cls)
        ((name, m) :: attributes cls).

Section Classifier.

Variable cls : klass.
Variable self : graph.

(** The loop of [best_lower_bound]. The body calls [self.func()]: the
    loop variable [func] is not used. *)
Fixpoint lower_loop (funcs : list method) (lbound : Q) : result Q :=
  match funcs with
  | [] => Ok lbound
  | func :: funcs' =>
      match call_attr cls self "func" with
      | Ok new_bound =>
          lower_loop funcs' (if Qltb lbound new_bound then new_bound else lbound)
      | Raise e =>
          if exn_is_ValueError e then lower_loop funcs' lbound else Raise e
      end
  end.

Definition best_lower_bound : result Q :=
  lower_loop (lower_bounds cls) 1%Q.

Fixpoint upper_loop (funcs : list method) (ubound : Q) : result Q :=
  match funcs with
  | [] => Ok ubound
  | func :: funcs' =>
      match call_attr cls self "func" with
      | Ok new_bound =>
          upper_loop funcs' (if Qltb new_bound ubound then new_bound else ubound)
      | Raise e =>
          if exn_is_ValueError e then upper_loop funcs' ubound else Raise e
      end
  end.

Definition best_upper_bound : result Q :=
  upper_loop (upper_bounds cls) (inject_Z (order self)).

Fixpoint alpha_loop (funcs : list method) : result bool :=
  match funcs with
  | [] => Ok false
  | func :: funcs' =>
      match call_attr cls self "func" with
      | Ok p => if truthy p then Ok true else alpha_loop funcs'
      | Raise e =>
          if exn_is_ValueError e then alpha_loop funcs' else Raise e
      end
  end.

Definition has_alpha_property : result bool :=
  alpha_loop (alpha_properties cls).

Definition is_difficult : result bool :=
  p <- has_alpha_property ;;
  if p then Ok false
  else
    l <- best_lower_bound ;;
    let lbound := Qceiling l in
    u <- best_upper_bound ;;
    let ubound := Qfloor u in
    if lbound =? ubound then Ok false else Ok true.

End Classifier.

(** ** Relaxation adapters

    The linear program and the semidefinite program are handed to external
    solvers, which are parameters here: a solver returns a value or
    raises.  Floating-point numbers are written as rationals; their
    rounding is not modelled. *)

Record lp_problem : Type := LP {
  maximization : bool;
  objective : list label;               (* the sum of these variables *)
  constraints : list (list label * Q)   (* a sum of variables and its max *)
}.

Record sdp_problem : Type := SDP {
  sdp_c : list Q;
  sdp_Gs : list (Z * Z * Q);            (* row, column, entry of -X *)
  sdp_Gs_shape : Z * Z;
  sdp_hs : list Q;
  sdp_hs_shape : Z * Z
}.

Fixpoint pairs (vs : list label) : list (label * label) :=
  match vs with
  | [] => []
  | u :: vs' => map (pair u) vs' ++ pairs vs'
  end.

(** [self.complement()]: the same vertices, an edge between two distinct
    vertices exactly when the graph has none. *)
Definition complement (g : graph) : graph :=
  Graph (vertices g)
        (filter (fun e => negb (label_eqb (fst e) (snd e))
                          && negb (has_edge g (fst e) (snd e)))
                (pairs (vertices g))).

Definition label_int (x : label) : result Z :=
  match x with
  | LInt z => Ok z
  | LPair _ _ => Raise TypeError
  end.

Fixpoint mapM {A B} (f : A -> result B) (l : list A) : result (list B) :=
  match l with
  | [] => Ok []
  | x :: l' => y <- f x ;; ys <- mapM f l' ;; Ok (y :: ys)
  end.

Definition range (lo hi : Z) : list Z :=
  map (fun i => lo + Z.of_nat i) (seq 0 (Z.to_nat (hi - lo))).

Definition dot (u v : list Q) : Q :=
  fold_right Qplus 0%Q (map (fun p => (fst p * snd p)%Q) (combine u v)).

(** [round(v, 3)]: to three decimals, a half going away from zero. *)
Definition round3 (v : Q) : Q :=
  let s := (v * 1000)%Q in
  if Qle_bool 0 s then (Qfloor (s + (1 # 2)) # 1000)
  else (Qceiling (s - (1 # 2)) # 1000).

Section Adapters.

Variable lp_solve : lp_problem -> result Q.
Variable sdp_solve : sdp_problem -> result (list Q).

Definition fractional_alpha_problem (self : graph) : lp_problem :=
  LP true (vertices self)
     (map (fun v => ([v], 1%Q)) (vertices self)
      ++ map (fun e => ([fst e; snd e], 1%Q)) (edges self)).

Definition fractional_alpha : method :=
  fun self => lp_solve (fractional_alpha_problem self).

Definition lovasz_theta_problem (gc : graph) : result sdp_problem :=
  let n := order gc in
  let m := size gc in
  let d := m + n in
  let c := map Qopp (repeat 0%Q (Z.to_nat (n - 1))
                     ++ repeat 2%Q (Z.to_nat (d - n))) in
  edge_rows <- mapM (fun e => a <- label_int (fst e) ;;
                              b <- label_int (snd e) ;;
                              Ok (b + a * n)) (edges gc) ;;
  let Xrow := map (fun i => i * (1 + n)) (range 0 (n - 1)) ++ edge_rows in
  let Xcol := range 0 (n - 1) ++ range (n - 1) (d - 1) in
  let X := map (fun rc => (fst rc, snd rc, 1%Q)) (combine Xrow Xcol)
           ++ map (fun i => (n * n - 1, i, (-1)%Q)) (range 0 (n - 1)) in
  Ok (SDP c
          (map (fun t => (fst t, Qopp (snd t))) X) (n * n, d - 1)
          (map Qopp (repeat 0%Q (Z.to_nat (n * n - 1)) ++ [(-1)%Q])) (n, n)).

Definition lovasz_theta : method :=
  fun self =>
    let gc := complement self in
    let n := order gc in
    if n =? 1 then Ok 1%Q
    else
      p <- lovasz_theta_problem gc ;;
      x <- sdp_solve p ;;
      let v := (1 + dot (map Qopp (sdp_c p)) x)%Q in
      Ok (round3 v).

(** Those of the methods of [class INPGraph] that return a number or a
    truth value and are modelled here, by name; the registries are empty
    lists in the class body. *)
Definition INPGraph_methods : list (string * method) :=
  [ ("matching_number", fun self => Ok (inject_Z (matching_number self)));
    ("mu", fun self => Ok (inject_Z (matching_number self)));
    ("max_degree", fun self => d <- max_degree self ;; Ok (inject_Z d));
    ("min_degree", fun self => d <- min_degree self ;; Ok (inject_Z d));
    ("has_max_degree_order_minus_one", has_max_degree_order_minus_one);
    ("has_pendant_vertex", has_pendant_vertex);
    ("has_nonempty_KE_part", has_nonempty_KE_part);
    ("matching_lower_bound", matching_lower_bound);
    ("residue", residue);
    ("matching_upper_bound", matching_upper_bound);
    ("fractional_alpha", fractional_alpha);
    ("lovasz_theta", lovasz_theta);
    ("kwok", kwok);
    ("min_degree_bound", min_degree_bound);
    ("annihilation_number", annihilation_number);
    ("borg", borg) ]%string.

Definition INPGraph : klass := Klass [] [] [] INPGraph_methods.

(** Every name that the body of [class INPGraph] binds, the three
    registries under their mangled names. *)
Definition INPGraph_names : list string :=
  [ "_INPGraph__lower_bounds"; "_INPGraph__upper_bounds";
    "_INPGraph__alpha_properties"; "__init__"; "next_difficult_graph";
    "is_difficult"; "best_lower_bound"; "best_upper_bound";
    "has_alpha_property"; "write_to_pdf"; "matching_number"; "mu";
    "independence_number"; "alpha"; "bipartite_double_cover"; "bidouble";
    "kronecker_double_cover"; "canonical_double_cover";
    "closed_neighborhood"; "open_neighborhood"; "max_degree"; "min_degree";
    "union_MCIS"; "has_max_degree_order_minus_one"; "is_claw_free";
    "has_pendant_vertex"; "has_simplicial_vertex"; "is_KE"; "is_almost_KE";
    "has_nonempty_KE_part"; "is_foldable"; "matching_lower_bound";
    "residue"; "average_degree_bound"; "caro_wei"; "wilf";
    "hansen_zheng_lower_bound"; "harant"; "matching_upper_bound";
    "fractional_alpha"; "lovasz_theta"; "kwok"; "hansen_zheng_upper_bound";
    "min_degree_bound"; "cvetkovic"; "annihilation_number"; "borg";
    "cut_vertices_bound" ]%string.

End Adapters.


Definition zero_lp : lp_problem -> result Q := fun _ => Ok 0%Q.
Definition zero_sdp : sdp_problem -> result (list Q) :=
  fun p => Ok (map (fun _ => 0%Q) (sdp_c p)).

(** A subclass of [INPGraph] that does bind the name [func], to
    [has_pendant_vertex], and registers one alpha property. *)
Definition PendantGraph : klass :=
  with_registries
    (subclass (INPGraph zero_lp zero_sdp) "func" has_pendant_vertex)
    [] [] [has_pendant_vertex].


(** The aggregators as the specification words them: every registered
    function is evaluated on the graph. *)
Fixpoint spec_lower_loop (self : graph) (funcs : list method) (lbound : Q)
  : result Q :=
  match funcs with
  | [] => Ok lbound
  | func :: funcs' =>
      match func self with
      | Ok new_bound =>
          spec_lower_loop self funcs'
            (if Qltb lbound new_bound then new_bound else lbound)
      | Raise e =>
          if exn_is_ValueError e then spec_lower_loop self funcs' lbound
          else Raise e
      end
  end.

Definition spec_best_lower_bound (cls : klass) (self : graph) : result Q :=
  spec_lower_loop self (lower_bounds cls) 1%Q.

Fixpoint spec_upper_loop (self : graph) (funcs : list method) (ubound : Q)
  : result Q :=
  match funcs with
  | [] => Ok ubound
  | func :: funcs' =>
      match func self with
      | Ok new_bound =>
          spec_upper_loop self funcs'
            (if Qltb new_bound ubound then new_bound else ubound)
      | Raise e =>
          if exn_is_ValueError e then spec_upper_loop self funcs' ubound
          else Raise e
      end
  end.

Definition spec_best_upper_bound (cls : klass) (self : graph) : result Q :=
  spec_upper_loop self (upper_bounds cls) (inject_Z (order self)).

(** The invariant [wf], as a test. *)
Fixpoint nodupb (l : list label) : bool :=
  match l with
  | [] => true
  | x :: l' => negb (mem x l') && nodupb l'
  end.

Definition wfb (g : graph) : bool :=
  nodupb (vertices g)
  && forallb (fun e => negb (label_eqb (fst e) (snd e))
                       && mem (fst e) (vertices g)
                       && mem (snd e) (vertices g)) (edges g).

(** ** Notions used in the statements and proofs *)

(** The end points of a list of edges. *)
Definition endpoints (m : list (label * label)) : list label :=
  flat_map (fun e => [fst e; snd e]) m.

(** A matching of the edge list [es] that stays away from [used]: edges
    of [es] whose end points are all different and not in [used]. *)
Definition matching_of (es : list (label * label)) (used : list label)
    (m : list (label * label)) : Prop :=
  incl m es /\ NoDup (endpoints m)
  /\ forall x, In x (endpoints m) -> ~ In x used.

(** The test [union_MCIS] makes for a vertex [v], on graphs as values:
    [b] is the bipartite double cover, the closed neighbourhood of
    [(v,0)] and [(v,1)] is deleted from it, and the deficiency of what is
    left, plus 2, is compared with the deficiency of [b]. *)
Definition reduced_cover (b : graph) (v : label) : graph :=
  delete_vertices b
    (closed_neighborhood b (VertList [LPair v (LInt 0); LPair v (LInt 1)])).

Definition critical_test (self : graph) (v : label) : bool :=
  let b := bipartite_double_cover self in
  let test := reduced_cover b v in
  order test - matching_number test + 2 =? order b - matching_number b.

(** The sum of the weights [w] of the elements that pass [f]. *)
Definition wsum (f : label -> bool) (w : label -> Z) (vs : list label) : Z :=
  sum (map w (filter f vs)).

(** A simple graph on the vertex list [vs], by its adjacency test. *)
Definition simple (adj : label -> label -> bool) : Prop :=
  (forall u w, adj u w = adj w u) /\ (forall u, adj u u = false).

Definition deg (vs : list label) (adj : label -> label -> bool) (u : label) : Z :=
  wsum (adj u) (fun _ => 1) vs.

(** [realizes vs adj s]: the degrees of the graph are the numbers [s], in
    some order. *)
Definition realizes (vs : list label) (adj : label -> label -> bool)
    (s : list Z) : Prop :=
  NoDup vs /\ simple adj /\ Permutation (map (deg vs adj) vs) s.

Definition graphic (s : list Z) : Prop := exists vs adj, realizes vs adj s.

Definition is_pair (a b p q : label) : bool :=
  (label_eqb a p && label_eqb b q) || (label_eqb a q && label_eqb b p).

(** The edge [p - q] is put in ([val = true]) or taken out. *)
Definition set_edge (adj : label -> label -> bool) (p q : label) (val : bool)
  : label -> label -> bool :=
  fun a b => if is_pair a b p q then val else adj a b.

(** The exchange of the Havel-Hakimi argument: the edges [v - y] and
    [x - z] go, the edges [v - x] and [y - z] come. *)
Definition exchange (adj : label -> label -> bool) (v x y z : label)
  : label -> label -> bool :=
  set_edge (set_edge (set_edge (set_edge adj v y false) x z false)
              v x true) y z true.

(** The weight that the neighbours of [v] carry, and the weight of all. *)
Definition neighbour_weight (vs : list label) (adj : label -> label -> bool)
    (v : label) : Z :=
  wsum (adj v) (deg vs adj) vs.

Definition total_weight (vs : list label) (adj : label -> label -> bool) : Z :=
  wsum (fun _ => true) (deg vs adj) vs.

(** [dominant vs adj v]: no vertex outside the neighbourhood of [v] has a
    larger degree than a neighbour of [v]. *)
Definition dominant (vs : list label) (adj : label -> label -> bool)
    (v : label) : Prop :=
  forall x y, In x vs -> In y vs -> x <> v ->
    adj v y = true -> adj v x = false ->
    deg vs adj x <= deg vs adj y.

Definition bad_pair (vs : list label) (adj : label -> label -> bool)
    (v : label) (xy : label * label) : bool :=
  negb (label_eqb (fst xy) v) && adj v (snd xy) && negb (adj v (fst xy))
  && (deg vs adj (snd xy) <? deg vs adj (fst xy)).

Definition without (v : label) (vs : list label) : list label :=
  filter (fun u => negb (label_eqb u v)) vs.

(** The reduction as the specification words it: as long as the head [d]
    is positive it is removed (it is the largest entry), the next [d]
    entries are decremented and the list is sorted again, largest first;
    the reduction ends when the head is 0. *)
Inductive hh_reduces : list Z -> list Z -> Prop :=
| hh_stop (rest : list Z) : hh_reduces (0 :: rest) (0 :: rest)
| hh_next (d : Z) (rest final : list Z) :
    0 < d ->
    Forall (fun k => k <= d) rest ->
    (Z.to_nat d <= length rest)%nat ->
    hh_reduces
      (sort_reverse (map (fun k => k - 1) (firstn (Z.to_nat d) rest)
                     ++ skipn (Z.to_nat d) rest)) final ->
    hh_reduces (d :: rest) final.

(** ** Further methods of the class *)


(** [len(self.independent_set())]: the size of a largest set of pairwise
    non-adjacent vertices, by exhaustive search over the vertex list;
    [chosen] holds the vertices already taken. *)
Fixpoint max_independent (g : graph) (vs chosen : list label) : nat :=
  match vs with
  | [] => O
  | v :: vs' =>
      let without := max_independent g vs' chosen in
      if mem v chosen || existsb (has_edge g v) chosen then without
      else Nat.max without (S (max_independent g vs' (v :: chosen)))
  end.

Definition independence_number (g : graph) : Z :=
  Z.of_nat (max_independent g (vertices g) []).

(** [sum([1/(1+Integer(d)) for d in self.degree()])]. *)
Definition caro_wei : method :=
  fun self =>
    Ok (Qred (fold_left Qplus
                (map (fun d => 1 / (1 + inject_Z d))%Q (degree self)) 0%Q)).

(** [ceil(n - (2 * e)/(1 + floor(2 * e / n)))]; the division by [n] is a
    [ZeroDivisionError], an [ArithmeticError], on the graph without
    vertices. *)
Definition hansen_zheng_lower_bound : method :=
  fun self =>
    let n := order self in
    let e := size self in
    if n =? 0 then Raise ArithmeticError
    else
      Ok (inject_Z
            (Qceiling (inject_Z n
                       - (2 * inject_Z e)
                         / (1 + inject_Z (Qfloor (2 * inject_Z e / inject_Z n))))%Q)).

(** ** Notions for the properties of the methods *)

(** One pass of the loop of [best_lower_bound], on the outcome of the
    call in its body. *)
Definition lower_pass (call : result Q) (lbound : Q) : result Q :=
  match call with
  | Ok new_bound => Ok (if Qltb lbound new_bound then new_bound else lbound)
  | Raise e => if exn_is_ValueError e then Ok lbound else Raise e
  end.

(** One pass of the loop of [best_upper_bound]. *)
Definition upper_pass (call : result Q) (ubound : Q) : result Q :=
  match call with
  | Ok new_bound => Ok (if Qltb new_bound ubound then new_bound else ubound)
  | Raise e => if exn_is_ValueError e then Ok ubound else Raise e
  end.

(** One pass of the loop of [has_alpha_property], to its end or to the
    next pass: the truth value of what the call returns. *)
Definition alpha_pass (call : result Q) : result bool :=
  match call with
  | Ok p => Ok (truthy p)
  | Raise e => if exn_is_ValueError e then Ok false else Raise e
  end.

(** A subclass that binds [func] to [kwok] and fills the three
    registries. *)
Definition KwokBorgGraph : klass :=
  with_registries (subclass (INPGraph zero_lp zero_sdp) "func" kwok)
    [residue; matching_lower_bound] [kwok; borg] [has_pendant_vertex].

(** The two sides of the double cover: 0 and 1. *)
Definition opposite_sides (i j : Z) : bool :=
  ((i =? 0) && (j =? 1)) || ((i =? 1) && (j =? 0)).

(** An independent set among [vs] that stays away from [chosen]. *)
Definition independent_of (g : graph) (vs chosen : list label)
    (I : list label) : Prop :=
  incl I vs /\ NoDup I
  /\ (forall x y, In x I -> In y I -> x <> y -> has_edge g x y = false)
  /\ (forall x c, In x I -> In c chosen -> x <> c /\ has_edge g x c = false).

(** The vertices are integers from 0 below the order, as [lovasz_theta]
    uses them for matrix indices. *)
Definition int_labelled (g : graph) : Prop :=
  forall v, In v (vertices g) -> exists z, v = LInt z /\ 0 <= z < order g.

(** * Properties *)

(** ** Labels and well-formed graphs *)

Lemma label_eqb_eq (x y : label) : label_eqb x y = true <-> x = y.
Proof.
  revert y. induction x as [a|a1 IH1 b1 IH2]; intros [b|a2 b2]; simpl;
    try (split; [discriminate|congruence]).
  - rewrite Z.eqb_eq. split; congruence.
  - rewrite andb_true_iff, IH1, IH2. split; [intros []|intros [= -> ->]]; subst; auto.
Qed.

Lemma label_eqb_refl (x : label) : label_eqb x x = true.
Proof. now apply label_eqb_eq. Qed.

Lemma label_eqb_neq (x y : label) : label_eqb x y = false <-> x <> y.
Proof.
  rewrite <- label_eqb_eq. destruct (label_eqb x y); split; congruence.
Qed.

Lemma mem_In (x : label) (l : list label) : mem x l = true <-> In x l.
Proof.
  unfold mem. rewrite existsb_exists. split.
  - intros (y & Hy & E). apply label_eqb_eq in E. now subst.
  - intros H. exists x. split; [assumption|apply label_eqb_refl].
Qed.

Lemma nodupb_sound (l : list label) : nodupb l = true -> NoDup l.
Proof.
  induction l as [|x l IH]; simpl; [constructor|].
  rewrite andb_true_iff, negb_true_iff. intros [Hx Hl].
  constructor; [|now apply IH].
  rewrite <- mem_In. congruence.
Qed.

Lemma wfb_sound (g : graph) : wfb g = true -> wf g.
Proof.
  unfold wfb, wf. rewrite andb_true_iff, forallb_forall.
  intros [Hnd Hedges]. split; [now apply nodupb_sound|].
  intros u v Hin. specialize (Hedges (u, v) Hin). simpl in Hedges.
  rewrite !andb_true_iff, negb_true_iff, label_eqb_neq, !mem_In in Hedges.
  tauto.
Qed.

Lemma label_eq_dec (x y : label) : {x = y} + {x <> y}.
Proof.
  destruct (label_eqb x y) eqn:E.
  - left. now apply label_eqb_eq.
  - right. now apply label_eqb_neq.
Qed.

Lemma edge_eq_dec (e1 e2 : label * label) : {e1 = e2} + {e1 <> e2}.
Proof.
  destruct e1 as [a1 b1], e2 as [a2 b2].
  destruct (label_eq_dec a1 a2) as [->|Ha]; [|right; congruence].
  destruct (label_eq_dec b1 b2) as [->|Hb]; [left; reflexivity|].
  right; congruence.
Qed.

Lemma mem_false (x : label) (l : list label) : mem x l = false <-> ~ In x l.
Proof.
  rewrite <- mem_In. destruct (mem x l); split; congruence.
Qed.

(** ** The classifier *)

(** The class body binds no name [func], and every method of the table
    is one of its names. *)
Lemma INPGraph_names_no_func :
  ~ In "func"%string INPGraph_names
  /\ forall lp sdp, incl (map fst (INPGraph_methods lp sdp)) INPGraph_names.
Proof.
  split.
  - intros H. repeat (destruct H as [H|H]; [discriminate H|]). exact H.
  - intros lp sdp name H.
    repeat (destruct H as [<-|H]; [vm_compute; tauto|]). destruct H.
Qed.

Lemma INPGraph_has_no_func lp sdp :
  lookup "func" (attributes (INPGraph lp sdp)) = None.
Proof. reflexivity. Qed.

Lemma Qltb_lt (x y : Q) : Qltb x y = true <-> (x < y)%Q.
Proof. unfold Qltb, Qlt. apply Z.ltb_lt. Qed.

Lemma truthy_py_bool (b : bool) : truthy (py_bool b) = b.
Proof. destruct b; reflexivity. Qed.

Lemma call_attr_missing (cls : klass) (self : graph) (name : string) :
  lookup name (attributes cls) = None ->
  call_attr cls self name = Raise (AttributeError name).
Proof. unfold call_attr; intros ->; reflexivity. Qed.

Lemma call_attr_bound (cls : klass) (self : graph) (name : string) (m : method) :
  lookup name (attributes cls) = Some m ->
  call_attr cls self name = m self.
Proof. unfold call_attr; intros ->; reflexivity. Qed.

Lemma lower_loop_raise cls self e funcs lbound :
  call_attr cls self "func" = Raise e ->
  exn_is_ValueError e = false ->
  funcs <> [] ->
  lower_loop cls self funcs lbound = Raise e.
Proof.
  intros Hcall He Hne.
  destruct funcs as [|func funcs']; [contradiction|].
  simpl. rewrite Hcall, He. reflexivity.
Qed.

Lemma upper_loop_raise cls self e funcs ubound :
  call_attr cls self "func" = Raise e ->
  exn_is_ValueError e = false ->
  funcs <> [] ->
  upper_loop cls self funcs ubound = Raise e.
Proof.
  intros Hcall He Hne.
  destruct funcs as [|func funcs']; [contradiction|].
  simpl. rewrite Hcall, He. reflexivity.
Qed.

Lemma alpha_loop_raise cls self e funcs :
  call_attr cls self "func" = Raise e ->
  exn_is_ValueError e = false ->
  funcs <> [] ->
  alpha_loop cls self funcs = Raise e.
Proof.
  intros Hcall He Hne.
  destruct funcs as [|func funcs']; [contradiction|].
  simpl. rewrite Hcall, He. reflexivity.
Qed.




(** With the empty registries no loop body runs. *)
Lemma INPGraph_defaults lp sdp (g : graph) :
  best_lower_bound (INPGraph lp sdp) g = Ok 1%Q
  /\ best_upper_bound (INPGraph lp sdp) g = Ok (inject_Z (order g))
  /\ has_alpha_property (INPGraph lp sdp) g = Ok false
  /\ is_difficult (INPGraph lp sdp) g = Ok (negb (order g =? 1)).
Proof.
  repeat split.
  unfold is_difficult, has_alpha_property, best_lower_bound, best_upper_bound.
  cbn [INPGraph alpha_properties lower_bounds upper_bounds
       alpha_loop lower_loop upper_loop bind].
  rewrite Qfloor_Z. change (Qceiling 1) with 1.
  rewrite Z.eqb_sym. destruct (order g =? 1); reflexivity.
Qed.

(** C4: with the registries of the source (three empty lists), for every
    graph the lower bound is the default 1, the upper bound is the order,
    no alpha property holds, and the graph is difficult exactly when its
    order is not 1. *)
Theorem source_registries_classification lp sdp (g : graph) :
  best_lower_bound (INPGraph lp sdp) g = Ok 1%Q
  /\ best_upper_bound (INPGraph lp sdp) g = Ok (inject_Z (order g))
  /\ has_alpha_property (INPGraph lp sdp) g = Ok false
  /\ is_difficult (INPGraph lp sdp) g = Ok (negb (order g =? 1))
  /\ (is_difficult (INPGraph lp sdp) g = Ok true <-> order g <> 1).
Proof.
  destruct (INPGraph_defaults lp sdp g) as (Hl & Hu & Hp & Hd).
  repeat split; try assumption.
  - rewrite Hd. intros H Heq. rewrite Heq in H. discriminate.
  - intros Hne. rewrite Hd. apply Z.eqb_neq in Hne. rewrite Hne. reflexivity.
Qed.

(** C3: on an instance of [INPGraph], as soon as a registry list is not
    empty its aggregator raises [AttributeError] for the name [func],
    whatever the registered functions are: the loop body looks up the
    attribute [func] of the graph, which the class does not have, and only
    [ValueError] is handled. *)
Theorem nonempty_registry_raises_AttributeError
    lp sdp (lbs ubs aps : list method) (g : graph) :
  (lbs <> [] ->
   best_lower_bound (with_registries (INPGraph lp sdp) lbs ubs aps) g
   = Raise (AttributeError "func"))
  /\ (ubs <> [] ->
      best_upper_bound (with_registries (INPGraph lp sdp) lbs ubs aps) g
      = Raise (AttributeError "func"))
  /\ (aps <> [] ->
      has_alpha_property (with_registries (INPGraph lp sdp) lbs ubs aps) g
      = Raise (AttributeError "func")).
Proof.
  set (cls := with_registries (INPGraph lp sdp) lbs ubs aps).
  assert (Hcall : call_attr cls g "func" = Raise (AttributeError "func"))
    by (apply call_attr_missing; reflexivity).
  repeat split; intros Hne.
  - apply lower_loop_raise; auto.
  - apply upper_loop_raise; auto.
  - apply alpha_loop_raise; auto.
Qed.

Lemma nonempty_registry_raises_AttributeError_witness :
  [residue] <> []
  /\ best_lower_bound
       (with_registries (INPGraph (fun _ => Ok 0%Q) (fun _ => Ok []))
          [residue] [kwok] [has_pendant_vertex]) PathGraph3
     = Raise (AttributeError "func").
Proof.
  split; [discriminate|].
  apply (nonempty_registry_raises_AttributeError
           (fun _ => Ok 0%Q) (fun _ => Ok [])
           [residue] [kwok] [has_pendant_vertex] PathGraph3).
  discriminate.
Defined.

(** C2, at a registry that is not empty: the specification's aggregators
    adopt the registered matching bounds (2 on the edgeless graph on two
    vertices, 2 on the triangle), the code raises [AttributeError]
    instead.  With the empty registries both agree on the defaults. *)
Theorem registered_bounds_not_evaluated :
  let cls := with_registries (INPGraph zero_lp zero_sdp)
               [matching_lower_bound] [matching_upper_bound] [] in
  spec_best_lower_bound cls (edgeless 2) = Ok 2%Q
  /\ best_lower_bound cls (edgeless 2) = Raise (AttributeError "func")
  /\ spec_best_upper_bound cls CompleteGraph3 = Ok 2%Q
  /\ best_upper_bound cls CompleteGraph3 = Raise (AttributeError "func")
  /\ (forall g,
        best_lower_bound (INPGraph zero_lp zero_sdp) g
        = spec_best_lower_bound (INPGraph zero_lp zero_sdp) g
        /\ best_upper_bound (INPGraph zero_lp zero_sdp) g
           = spec_best_upper_bound (INPGraph zero_lp zero_sdp) g).
Proof.
  repeat split; vm_compute; reflexivity.
Qed.

Lemma is_difficult_true_inv cls g :
  is_difficult cls g = Ok true ->
  has_alpha_property cls g = Ok false
  /\ exists l u, best_lower_bound cls g = Ok l
                 /\ best_upper_bound cls g = Ok u
                 /\ Qceiling l <> Qfloor u.
Proof.
  unfold is_difficult.
  destruct (has_alpha_property cls g) as [[|]|e]; simpl; try discriminate.
  destruct (best_lower_bound cls g) as [l|e]; simpl; try discriminate.
  destruct (best_upper_bound cls g) as [u|e]; simpl; try discriminate.
  destruct (Qceiling l =? Qfloor u) eqn:E; try discriminate.
  intros _. split; [reflexivity|]. exists l, u. repeat split.
  now apply Z.eqb_neq.
Qed.

(** C1, as the code has it: [is_difficult] returns false when an alpha
    property holds; otherwise, with [lbound] the ceiling of the best lower
    bound and [ubound] the floor of the best upper bound, it returns false
    when the two are equal and true when they differ; and it returns true
    only in that way. *)
Theorem is_difficult_iff_bounds_differ (cls : klass) (g : graph) :
  (has_alpha_property cls g = Ok true -> is_difficult cls g = Ok false)
  /\ (forall l u,
        has_alpha_property cls g = Ok false ->
        best_lower_bound cls g = Ok l ->
        best_upper_bound cls g = Ok u ->
        is_difficult cls g = Ok (negb (Qceiling l =? Qfloor u)))
  /\ (is_difficult cls g = Ok true <->
      has_alpha_property cls g = Ok false
      /\ exists l u, best_lower_bound cls g = Ok l
                     /\ best_upper_bound cls g = Ok u
                     /\ Qceiling l <> Qfloor u).
Proof.
  split; [|split].
  - unfold is_difficult. intros ->. reflexivity.
  - unfold is_difficult. intros l u -> -> ->. simpl.
    destruct (Qceiling l =? Qfloor u); reflexivity.
  - split; [apply is_difficult_true_inv|].
    intros [Hp (l & u & Hl & Hu & Hne)].
    unfold is_difficult. rewrite Hp, Hl, Hu. simpl.
    apply Z.eqb_neq in Hne. rewrite Hne. reflexivity.
Qed.

Lemma is_difficult_iff_bounds_differ_witness :
  (has_alpha_property PendantGraph PathGraph3 = Ok true
   /\ is_difficult PendantGraph PathGraph3 = Ok false)
  /\ (has_alpha_property (INPGraph zero_lp zero_sdp) (edgeless 2) = Ok false
      /\ is_difficult (INPGraph zero_lp zero_sdp) (edgeless 2)
         = Ok (negb (Qceiling 1 =? Qfloor (inject_Z 2)))).
Proof.
  split; (split; [reflexivity|]).
  - destruct (is_difficult_iff_bounds_differ PendantGraph PathGraph3)
      as [H _].
    apply H. reflexivity.
  - destruct (is_difficult_iff_bounds_differ
                (INPGraph zero_lp zero_sdp) (edgeless 2)) as [_ [H _]].
    apply H; reflexivity.
Defined.

(** C1 as stated fails on the graph of order 0: no alpha property holds,
    the rounded bounds are 1 and 0, so the lower one is not below the
    upper one, and yet the verdict is "difficult". *)
Lemma is_difficult_not_strictly_below :
  let cls := INPGraph zero_lp zero_sdp in
  let g := edgeless 0 in
  ~ (forall l u,
       has_alpha_property cls g = Ok false ->
       best_lower_bound cls g = Ok l ->
       best_upper_bound cls g = Ok u ->
       (is_difficult cls g = Ok true <-> Qceiling l < Qfloor u)).
Proof.
  intros cls g H.
  specialize (H 1%Q 0%Q eq_refl eq_refl eq_refl).
  destruct H as [H _]. specialize (H eq_refl). vm_compute in H. discriminate.
Qed.

(** ** Graphs of order 0 *)

Lemma order_0_vertices (g : graph) : order g = 0 -> vertices g = [].
Proof.
  unfold order. destruct (vertices g); simpl; [reflexivity|lia].
Qed.




(** ** Solver failures *)


Lemma is_difficult_raise_upper cls g l e :
  has_alpha_property cls g = Ok false ->
  best_lower_bound cls g = Ok l ->
  best_upper_bound cls g = Raise e ->
  is_difficult cls g = Raise e.
Proof. unfold is_difficult. intros -> -> ->. reflexivity. Qed.




(** ** Kwok and Borg *)

Lemma fold_left_max_le (l : list Z) (x : Z) :
  x <= fold_left Z.max l x /\ forall y, In y l -> y <= fold_left Z.max l x.
Proof.
  revert x. induction l as [|z l IH]; intros x; simpl.
  - split; [lia|]. intros y [].
  - destruct (IH (Z.max x z)) as [H1 H2]. split; [lia|].
    intros y [<-|Hy]; [lia|]. now apply H2.
Qed.

Lemma fold_left_max_in (l : list Z) (x : Z) :
  fold_left Z.max l x = x \/ In (fold_left Z.max l x) l.
Proof.
  revert x. induction l as [|z l IH]; intros x; simpl; [now left|].
  destruct (IH (Z.max x z)) as [H|H]; [|now right; right].
  rewrite H. destruct (Z.max_spec x z) as [[_ ->]|[_ ->]]; auto.
Qed.

(** [py_max] returns the largest element of a list that is not empty. *)
Lemma py_max_spec (l : list Z) (m : Z) :
  py_max l = Ok m <-> In m l /\ forall y, In y l -> y <= m.
Proof.
  destruct l as [|x l]; simpl.
  - split; [discriminate|]. intros [[] _].
  - destruct (fold_left_max_le l x) as [H1 H2].
    destruct (fold_left_max_in l x) as [H3|H3].
    + split.
      * intros [= <-]. split; [left; congruence|].
        intros y [<-|Hy]; auto.
      * intros [Hin Hmax]. f_equal. apply Z.le_antisymm.
        -- apply Hmax. left. congruence.
        -- destruct Hin as [<-|Hin]; auto.
    + split.
      * intros [= <-]. split; [now right|].
        intros y [<-|Hy]; auto.
      * intros [Hin Hmax]. f_equal. apply Z.le_antisymm.
        -- apply Hmax. now right.
        -- destruct Hin as [<-|Hin]; auto.
Qed.

Lemma degree_nonneg (g : graph) (d : Z) : In d (degree g) -> 0 <= d.
Proof.
  unfold degree. rewrite in_map_iff. intros (v & <- & _).
  unfold degree_of. lia.
Qed.

Lemma max_degree_nonneg (g : graph) (Delta : Z) :
  max_degree g = Ok Delta -> 0 <= Delta.
Proof.
  unfold max_degree. rewrite py_max_spec. intros [Hin _].
  eapply degree_nonneg; eauto.
Qed.

Lemma Qdiv_inject_Z (a b : Z) :
  0 < b -> (inject_Z a / inject_Z b == a # Z.to_pos b)%Q.
Proof.
  intros Hb. destruct b as [|p|p]; try lia.
  unfold Qdiv, Qinv, Qmult, Qeq, inject_Z. simpl. lia.
Qed.

(** The ceiling of a quotient of integers, in integers. *)
Lemma Qceiling_div (a b : Z) :
  0 < b ->
  let c := Qceiling (inject_Z a / inject_Z b) in
  b * (c - 1) < a <= b * c.
Proof.
  intros Hb c.
  assert (Hc : c = - ((- a) / b)).
  { unfold c. rewrite (Qceiling_comp _ _ (Qdiv_inject_Z a b Hb)).
    unfold Qceiling, Qfloor, Qopp. simpl. rewrite Z2Pos.id by lia.
    reflexivity. }
  pose proof (Z.div_mod (- a) b ltac:(lia)) as Hdm.
  pose proof (Z.mod_pos_bound (- a) b Hb) as Hm.
  rewrite Hc. nia.
Qed.



(** ** Sorting *)

Lemma insert_desc_length (x : Z) (l : list Z) :
  length (insert_desc x l) = S (length l).
Proof.
  induction l as [|y l IH]; simpl; [reflexivity|].
  destruct (y <=? x); simpl; congruence.
Qed.

Lemma sort_reverse_length (l : list Z) : length (sort_reverse l) = length l.
Proof.
  induction l as [|x l IH]; simpl; [reflexivity|].
  rewrite insert_desc_length; congruence.
Qed.

Lemma residue_step_length (d : Z) (seq : list Z) :
  length (residue_step d seq) = length seq.
Proof.
  unfold residue_step.
  rewrite sort_reverse_length, length_app, length_map, <- length_app.
  now rewrite firstn_skipn.
Qed.

Lemma insert_asc_perm (x : Z) (l : list Z) :
  Permutation (x :: l) (insert_asc x l).
Proof.
  induction l as [|y l IH]; simpl; [reflexivity|].
  destruct (x <=? y); [reflexivity|].
  rewrite perm_swap. now apply perm_skip.
Qed.

Lemma sorted_perm (l : list Z) : Permutation l (sorted l).
Proof.
  induction l as [|x l IH]; simpl; [constructor|].
  rewrite <- insert_asc_perm. now apply perm_skip.
Qed.

Lemma insert_asc_sorted (x : Z) (l : list Z) :
  StronglySorted Z.le l -> StronglySorted Z.le (insert_asc x l).
Proof.
  induction 1 as [|y l Hs IH Hall]; simpl.
  - repeat constructor.
  - destruct (x <=? y) eqn:E.
    + apply Z.leb_le in E. constructor; [now constructor|].
      constructor; [assumption|].
      eapply Forall_impl; [|exact Hall]. intros; lia.
    + apply Z.leb_gt in E. constructor; [assumption|].
      eapply Permutation_Forall; [apply insert_asc_perm|].
      constructor; [lia|assumption].
Qed.

(** [sorted] gives the same numbers in ascending order. *)
Lemma sorted_ascending (l : list Z) : StronglySorted Z.le (sorted l).
Proof.
  induction l as [|x l IH]; simpl; [constructor|].
  now apply insert_asc_sorted.
Qed.

Lemma insert_desc_perm (x : Z) (l : list Z) :
  Permutation (x :: l) (insert_desc x l).
Proof.
  induction l as [|y l IH]; simpl; [reflexivity|].
  destruct (y <=? x); [reflexivity|].
  rewrite perm_swap. now apply perm_skip.
Qed.

Lemma sort_reverse_perm (l : list Z) : Permutation l (sort_reverse l).
Proof.
  induction l as [|x l IH]; simpl; [constructor|].
  rewrite <- insert_desc_perm. now apply perm_skip.
Qed.

Lemma insert_desc_sorted (x : Z) (l : list Z) :
  StronglySorted Z.ge l -> StronglySorted Z.ge (insert_desc x l).
Proof.
  induction 1 as [|y l Hs IH Hall]; simpl.
  - repeat constructor.
  - destruct (y <=? x) eqn:E.
    + apply Z.leb_le in E. constructor; [now constructor|].
      constructor; [lia|].
      eapply Forall_impl; [|exact Hall]. intros; lia.
    + apply Z.leb_gt in E. constructor; [assumption|].
      eapply Permutation_Forall; [apply insert_desc_perm|].
      constructor; [lia|assumption].
Qed.

(** [sort_reverse] gives the same numbers in descending order. *)
Lemma sort_reverse_descending (l : list Z) :
  StronglySorted Z.ge (sort_reverse l).
Proof.
  induction l as [|x l IH]; simpl; [constructor|].
  now apply insert_desc_sorted.
Qed.

(** ** The matching number *)

Lemma endpoints_app (m1 m2 : list (label * label)) :
  endpoints (m1 ++ m2) = endpoints m1 ++ endpoints m2.
Proof. unfold endpoints. apply flat_map_app. Qed.

Lemma max_matching_exists (es : list (label * label)) (used : list label) :
  exists m, matching_of es used m /\ length m = max_matching es used.
Proof.
  revert used. induction es as [|[u v] es IH]; intros used.
  - exists []. repeat split; simpl; try constructor; intros x [].
  - cbn [max_matching].
    destruct (IH used) as (m0 & (Hi0 & Hn0 & Hu0) & Hl0).
    assert (Hskip : exists m, matching_of ((u, v) :: es) used m
                              /\ length m = max_matching es used).
    { exists m0. split; [|assumption].
      split; [now apply incl_tl|]. split; assumption. }
    destruct (mem u used || mem v used || label_eqb u v) eqn:E;
      [exact Hskip|].
    apply orb_false_iff in E as [E Euv]. apply orb_false_iff in E as [Eu Ev].
    apply mem_false in Eu, Ev. apply label_eqb_neq in Euv.
    destruct (Nat.max_spec (max_matching es used)
                (S (max_matching es (u :: v :: used)))) as [[_ ->]|[_ ->]];
      [|exact Hskip].
    destruct (IH (u :: v :: used)) as (m1 & (Hi1 & Hn1 & Hu1) & Hl1).
    exists ((u, v) :: m1). split; [|simpl; congruence].
    split; [|split].
    + intros e [<-|He]; [now left|right; now apply Hi1].
    + cbn. constructor.
      * intros [->|Hin]; [contradiction|].
        apply (Hu1 u Hin). now left.
      * constructor; [|assumption].
        intros Hin. apply (Hu1 v Hin). right. now left.
    + intros x [<-|[<-|Hx]]; try assumption.
      intros Hxu. apply (Hu1 x Hx). right. now right.
Qed.

Lemma max_matching_upper (es : list (label * label)) (used : list label)
    (m : list (label * label)) :
  matching_of es used m -> (length m <= max_matching es used)%nat.
Proof.
  revert used m. induction es as [|[u v] es IH]; intros used m (Hi & Hn & Hu).
  - destruct m as [|e m]; [simpl; lia|]. destruct (Hi e (or_introl eq_refl)).
  - cbn [max_matching].
    destruct (in_dec edge_eq_dec (u, v) m) as [Hin|Hnin].
    + apply in_split in Hin as (m1 & m2 & ->).
      rewrite endpoints_app in Hn, Hu. cbn in Hn, Hu.
      assert (Hu_u : ~ In u used)
        by (apply Hu; apply in_or_app; right; now left).
      assert (Hu_v : ~ In v used)
        by (apply Hu; apply in_or_app; right; right; now left).
      assert (Hn' : NoDup (u :: v :: endpoints m1 ++ endpoints m2)).
      { eapply Permutation_NoDup; [|exact Hn].
        rewrite <- Permutation_middle.
        apply perm_skip. rewrite <- Permutation_middle. reflexivity. }
      inversion Hn' as [|? ? Hu1 Hn1]; subst.
      inversion Hn1 as [|? ? Hv1 Hn2]; subst.
      assert (Huv : u <> v) by (intros ->; apply Hu1; now left).
      apply mem_false in Hu_u, Hu_v. apply label_eqb_neq in Huv.
      rewrite Hu_u, Hu_v, Huv. cbn [orb].
      assert (Hrec : (length (m1 ++ m2)
                      <= max_matching es (u :: v :: used))%nat).
      { apply IH. split; [|split].
        - intros e He.
          assert (Hie : In e (m1 ++ (u, v) :: m2))
            by (apply in_app_or in He as [He|He]; apply in_or_app;
                [left|right; right]; assumption).
          destruct (Hi e Hie) as [<-|Hes]; [|assumption].
          exfalso.
          assert (In u (endpoints m1 ++ endpoints m2)).
          { rewrite <- endpoints_app. unfold endpoints.
            apply in_flat_map. exists (u, v). split; [assumption|now left]. }
          apply Hu1. now right.
        - now rewrite endpoints_app.
        - intros x Hx [<-|[<-|Hxu]].
          + apply Hu1. right. now rewrite <- endpoints_app.
          + apply Hv1. now rewrite <- endpoints_app.
          + apply (Hu x); [|assumption].
            rewrite endpoints_app in Hx.
            apply in_app_or in Hx as [Hx|Hx]; apply in_or_app;
              [left|right; right; right]; assumption. }
      rewrite !length_app in *. cbn [length] in *. lia.
    + assert (Hrec : (length m <= max_matching es used)%nat).
      { apply IH. split; [|split; assumption].
        intros e He. destruct (Hi e He) as [<-|Hes]; [contradiction|assumption]. }
      destruct (mem u used || mem v used || label_eqb u v); lia.
Qed.

(** X4: [matching_number] is the size of a largest matching of the graph. *)
Lemma matching_number_maximum (g : graph) :
  (exists m, matching_of (edges g) [] m
             /\ Z.of_nat (length m) = matching_number g)
  /\ (forall m, matching_of (edges g) [] m ->
                Z.of_nat (length m) <= matching_number g).
Proof.
  unfold matching_number. split.
  - destruct (max_matching_exists (edges g) []) as (m & Hm & Hl).
    exists m. split; [assumption|congruence].
  - intros m Hm. apply max_matching_upper in Hm. lia.
Qed.

(** ** The annihilation number *)

Lemma annihilation_loop_spec (seq : list Z) (n a : Z) :
  let r := annihilation_loop seq n a in
  a <= r
  /\ (forall k, a <= k < r -> annihilation_cond seq n k = true)
  /\ annihilation_cond seq n r = false.
Proof.
  funelim (annihilation_loop seq n a).
  - destruct H as (Hle & Hbelow & Hstop). repeat split; [lia| |assumption].
    intros k Hk. destruct (Z.eq_dec k a) as [->|Hne]; [assumption|].
    apply Hbelow. lia.
  - repeat split; [lia| |assumption]. intros k Hk. lia.
Qed.

Lemma sum_app (l1 l2 : list Z) : sum (l1 ++ l2) = sum l1 + sum l2.
Proof. induction l1 as [|x l1 IH]; simpl; lia. Qed.

Lemma sum_nonneg (l : list Z) : Forall (fun d => 0 <= d) l -> 0 <= sum l.
Proof. induction 1; simpl; lia. Qed.

Lemma Forall_firstn_nonneg (k : nat) (l : list Z) :
  Forall (fun d => 0 <= d) l -> Forall (fun d => 0 <= d) (firstn k l).
Proof.
  intros H. revert k. induction H as [|x l Hx Hl IH]; intros [|k]; simpl;
    constructor; auto.
Qed.

Lemma sum_firstn_skipn (k : nat) (l : list Z) :
  sum (firstn k l) + sum (skipn k l) = sum l.
Proof. rewrite <- sum_app, firstn_skipn. reflexivity. Qed.

(** For numbers that are not negative, the sum of the first [k] grows
    with [k]. *)
Lemma sum_firstn_mono (l : list Z) (j k : nat) :
  Forall (fun d => 0 <= d) l -> (j <= k)%nat ->
  sum (firstn j l) <= sum (firstn k l).
Proof.
  intros Hpos. revert j k.
  induction Hpos as [|x l Hx Hl IH]; intros j k Hjk.
  - rewrite !firstn_nil. lia.
  - destruct j as [|j]; destruct k as [|k]; simpl; try lia.
    + pose proof (sum_nonneg (firstn k l) (Forall_firstn_nonneg k l Hl)). lia.
    + specialize (IH j k ltac:(lia)). lia.
Qed.

Lemma sorted_degree_nonneg (g : graph) :
  Forall (fun d => 0 <= d) (sorted (degree g)).
Proof.
  eapply Permutation_Forall; [apply sorted_perm|].
  apply Forall_forall. intros d Hd. eapply degree_nonneg; eauto.
Qed.

(** C6, as the code has it: with [seq] the degrees in ascending order
    and [n] the order, [annihilation_number] returns the smallest index
    [a >= 1] at which the first [a] entries sum to more than the rest, and
    [n + 1] when there is none up to [n]: every index from 1 below [a] has
    a prefix sum that is at most the sum of the rest, and no index from
    [a] up to [n] has. *)
Theorem annihilation_number_first_excess (g : graph) :
  let seq := sorted (degree g) in
  let n := order g in
  let a := annihilation_number_Z g in
  annihilation_number g = Ok (inject_Z a)
  /\ StronglySorted Z.le seq /\ Permutation (degree g) seq
  /\ 1 <= a <= n + 1
  /\ (forall k, 1 <= k < a ->
        sum (firstn (Z.to_nat k) seq) <= sum (skipn (Z.to_nat k) seq))
  /\ (forall k, a <= k <= n ->
        sum (skipn (Z.to_nat k) seq) < sum (firstn (Z.to_nat k) seq)).
Proof.
  intros seq n a.
  destruct (annihilation_loop_spec seq n 1) as (Hle & Hbelow & Hstop).
  assert (Ea : a = annihilation_loop seq n 1) by reflexivity.
  assert (Hret : annihilation_number g = Ok (inject_Z a)) by reflexivity.
  assert (Hn : 0 <= n) by (unfold n, order; lia).
  assert (Hseq : Forall (fun d => 0 <= d) seq) by apply sorted_degree_nonneg.
  assert (Hs : StronglySorted Z.le seq) by apply sorted_ascending.
  assert (Hp : Permutation (degree g) seq) by apply sorted_perm.
  clearbody a seq n. rewrite <- Ea in Hle, Hbelow, Hstop. clear Ea.
  assert (Hbound : a <= n + 1).
  { destruct (Z.eq_dec a 1) as [->|Hne]; [lia|].
    specialize (Hbelow (a - 1) ltac:(lia)).
    unfold annihilation_cond in Hbelow.
    apply andb_prop in Hbelow as [H _]. apply Z.leb_le in H. lia. }
  split; [assumption|].
  split; [assumption|].
  split; [assumption|].
  split; [lia|]. split.
  - intros k Hk. specialize (Hbelow k Hk). unfold annihilation_cond in Hbelow.
    apply andb_prop in Hbelow as [_ H]. now apply Z.leb_le in H.
  - intros k Hk.
    assert (Ha : sum (skipn (Z.to_nat a) seq) < sum (firstn (Z.to_nat a) seq)).
    { unfold annihilation_cond in Hstop.
      apply andb_false_iff in Hstop as [H|H].
      - apply Z.leb_gt in H. lia.
      - apply Z.leb_gt in H. exact H. }
    pose proof (sum_firstn_mono seq (Z.to_nat a) (Z.to_nat k)
                  Hseq ltac:(lia)) as Hmono.
    pose proof (sum_firstn_skipn (Z.to_nat a) seq).
    pose proof (sum_firstn_skipn (Z.to_nat k) seq).
    lia.
Qed.

(** C6 as stated fails on the triangle: the value returned, 2, is not an
    index at which the first entries sum to at most the rest (4 against
    2), so it is not the smallest such index. *)
Lemma annihilation_number_not_smallest_le :
  ~ (sum (firstn (Z.to_nat (annihilation_number_Z CompleteGraph3))
                 (sorted (degree CompleteGraph3)))
     <= sum (skipn (Z.to_nat (annihilation_number_Z CompleteGraph3))
                   (sorted (degree CompleteGraph3)))
     /\ forall k, 1 <= k < annihilation_number_Z CompleteGraph3 ->
          ~ (sum (firstn (Z.to_nat k) (sorted (degree CompleteGraph3)))
             <= sum (skipn (Z.to_nat k) (sorted (degree CompleteGraph3))))).
Proof.
  intros [H _]. vm_compute in H. apply H. reflexivity.
Qed.

(** ** The union of maximum critical independent sets *)

(** The double cover has twice the vertices and twice the edges. *)
Lemma bipartite_double_cover_order_size (g : graph) :
  order (bipartite_double_cover g) = 2 * order g
  /\ size (bipartite_double_cover g) = 2 * size g.
Proof.
  unfold order, size, bipartite_double_cover. cbn [vertices edges]. split.
  - induction (vertices g) as [|v vs IH]; [reflexivity|].
    cbn [flat_map]. rewrite length_app. cbn [length map K2_sides] in *. lia.
  - induction (edges g) as [|e es IH]; [reflexivity|].
    cbn [flat_map]. rewrite length_app. cbn [length] in *. lia.
Qed.

Lemma deref_app_old (h h' : store) (l : loc) :
  (l < length h)%nat -> deref (h ++ h') l = deref h l.
Proof. intros Hl. unfold deref. now rewrite app_nth1. Qed.

Lemma deref_app_new (h : store) (g : graph) :
  deref (h ++ [g]) (length h) = g.
Proof. unfold deref. rewrite app_nth2, Nat.sub_diag; [reflexivity|lia]. Qed.

Lemma assign_app_new (h : store) (g g' : graph) :
  assign (length h) g' (h ++ [g]) = h ++ [g'].
Proof. induction h as [|x h IH]; simpl; [reflexivity|]. now rewrite IH. Qed.

(** One pass of the loop allocates one object, the copy, and changes no
    object that was there before. *)
Lemma union_MCIS_body_spec (b : loc) (alpha : Z) (v : label)
    (result : list label) (h : store) :
  (b < length h)%nat ->
  union_MCIS_body b alpha v (result, h)
  = (result ++ (if order (reduced_cover (deref h b) v)
                   - matching_number (reduced_cover (deref h b) v) + 2
                   =? alpha then [v] else []),
     h ++ [reduced_cover (deref h b) v]).
Proof.
  intros Hb. unfold union_MCIS_body, copy_obj, alloc, delete_vertices_obj.
  rewrite deref_app_new, assign_app_new, deref_app_new.
  rewrite deref_app_old by assumption. fold (reduced_cover (deref h b) v).
  destruct (_ =? alpha); [reflexivity|]. now rewrite app_nil_r.
Qed.

Lemma union_MCIS_loop_spec (b : loc) (alpha : Z) (vs : list label)
    (result : list label) (h : store) :
  (b < length h)%nat ->
  fold_left (fun st v => union_MCIS_body b alpha v st) vs (result, h)
  = (result
     ++ filter (fun v => order (reduced_cover (deref h b) v)
                         - matching_number (reduced_cover (deref h b) v) + 2
                         =? alpha) vs,
     h ++ map (reduced_cover (deref h b)) vs).
Proof.
  revert result h.
  induction vs as [|v vs IH]; intros result h Hb; cbn [fold_left filter map].
  - now rewrite !app_nil_r.
  - rewrite union_MCIS_body_spec by assumption.
    rewrite IH by (rewrite length_app; simpl; lia).
    rewrite deref_app_old by assumption.
    rewrite <- !app_assoc. simpl.
    destruct (_ =? alpha); reflexivity.
Qed.

Lemma union_MCIS_run_spec (self : loc) (h : store) :
  (self < length h)%nat ->
  union_MCIS_run self h
  = (filter (critical_test (deref h self)) (vertices (deref h self)),
     h ++ bipartite_double_cover (deref h self)
       :: map (reduced_cover (bipartite_double_cover (deref h self)))
              (vertices (deref h self))).
Proof.
  intros Hs. unfold union_MCIS_run, alloc.
  rewrite deref_app_new, deref_app_old by assumption.
  rewrite union_MCIS_loop_spec by (rewrite length_app; simpl; lia).
  rewrite deref_app_new. simpl. rewrite <- app_assoc. reflexivity.
Qed.

Lemma union_MCIS_filter (g : graph) :
  union_MCIS g = filter (critical_test g) (vertices g).
Proof.
  unfold union_MCIS. rewrite union_MCIS_run_spec by (simpl; lia).
  reflexivity.
Qed.

(** C9, as the code has it: [union_MCIS] returns a list for every graph,
    the vertices that pass the deficiency test, in vertex order, and the
    empty list for a graph of order 0; run on a graph object in a store it
    returns that same list and leaves every object that was there before,
    the graph itself among them, as it was, and the double cover [b] too
    (each pass deletes from a new copy).  On the 4-cycle it returns the 4
    vertices, on the complement of the 4-cycle the 4 vertices as well,
    and on the graph [Cx] of the docstring the 3 vertices 0, 1 and 3. *)
Theorem union_MCIS_contract :
  (forall g, union_MCIS g = filter (critical_test g) (vertices g))
  /\ (forall g, order g = 0 -> union_MCIS g = [])
  /\ (forall h self,
        (self < length h)%nat ->
        fst (union_MCIS_run self h) = union_MCIS (deref h self)
        /\ firstn (length h) (snd (union_MCIS_run self h)) = h
        /\ deref (snd (union_MCIS_run self h)) self = deref h self
        /\ deref (snd (union_MCIS_run self h)) (length h)
           = bipartite_double_cover (deref h self))
  /\ union_MCIS CycleGraph4 = [LInt 0; LInt 1; LInt 2; LInt 3]
  /\ union_MCIS (complement CycleGraph4) = [LInt 0; LInt 1; LInt 2; LInt 3]
  /\ union_MCIS (from_graph6 "Cx") = [LInt 0; LInt 1; LInt 3].
Proof.
  split; [exact union_MCIS_filter|].
  split.
  { intros g Hg. rewrite union_MCIS_filter, (order_0_vertices g Hg).
    reflexivity. }
  split.
  { intros h self Hs. rewrite union_MCIS_run_spec by assumption. simpl.
    split; [now rewrite union_MCIS_filter|].
    split; [now rewrite firstn_app, firstn_all, Nat.sub_diag, app_nil_r|].
    split; [now rewrite deref_app_old|].
    unfold deref. rewrite app_nth2, Nat.sub_diag; [reflexivity|lia]. }
  repeat split; vm_compute; reflexivity.
Qed.

Lemma union_MCIS_contract_witness :
  (1 < length [CycleGraph4; graph_Cx])%nat
  /\ fst (union_MCIS_run 1%nat [CycleGraph4; graph_Cx])
     = [LInt 0; LInt 1; LInt 3]
  /\ firstn 2 (snd (union_MCIS_run 1%nat [CycleGraph4; graph_Cx]))
     = [CycleGraph4; graph_Cx].
Proof.
  split; [simpl; lia|].
  destruct union_MCIS_contract as (_ & _ & Hrun & _ & _ & HCx).
  destruct (Hrun [CycleGraph4; graph_Cx] 1%nat ltac:(simpl; lia))
    as (Hres & Hold & _).
  split; [|exact Hold].
  rewrite Hres. exact HCx.
Defined.

(** C9 as stated fails on the complement of the 4-cycle: the list
    returned does not have 3 vertices. *)
Lemma union_MCIS_complement_C4_not_three :
  ~ (length (union_MCIS (complement CycleGraph4)) = 3%nat).
Proof. vm_compute. discriminate. Qed.

(** ** Degree sequences of simple graphs *)

Lemma wsum_cons f w x vs :
  wsum f w (x :: vs) = (if f x then w x else 0) + wsum f w vs.
Proof. unfold wsum. simpl. destruct (f x); simpl; lia. Qed.

Lemma wsum_ext f f' w vs :
  (forall u, In u vs -> f' u = f u) -> wsum f' w vs = wsum f w vs.
Proof.
  induction vs as [|x vs IH]; intros H; [reflexivity|].
  rewrite !wsum_cons.
  rewrite IH by (intros; apply H; simpl; auto).
  rewrite (H x) by (simpl; auto). reflexivity.
Qed.

(** Changing the test at one element of a list without repetition. *)
Lemma wsum_update f f' w vs x :
  NoDup vs -> In x vs ->
  (forall u, u <> x -> f' u = f u) ->
  wsum f' w vs
  = wsum f w vs + (if f' x then w x else 0) - (if f x then w x else 0).
Proof.
  intros Hnd. induction Hnd as [|y vs Hy Hnd IH]; intros Hin Hagree.
  - destruct Hin.
  - rewrite !wsum_cons. destruct Hin as [->|Hin].
    + rewrite (wsum_ext f f' w vs); [lia|].
      intros u Hu. apply Hagree. intros ->. contradiction.
    + rewrite IH by assumption.
      rewrite (Hagree y) by (intros ->; contradiction). lia.
Qed.

Lemma wsum_mono f f' w vs :
  (forall u, In u vs -> 0 <= w u) ->
  (forall u, In u vs -> f u = true -> f' u = true) ->
  wsum f w vs <= wsum f' w vs.
Proof.
  induction vs as [|x vs IH]; intros Hw Himp; [unfold wsum; simpl; lia|].
  rewrite !wsum_cons.
  specialize (IH (fun u Hu => Hw u (or_intror Hu))
                 (fun u Hu => Himp u (or_intror Hu))).
  specialize (Hw x (or_introl eq_refl)).
  specialize (Himp x (or_introl eq_refl)).
  destruct (f x); [rewrite Himp by reflexivity; lia|].
  destruct (f' x); lia.
Qed.

Lemma wsum_ext_weight f w w' vs :
  (forall u, In u vs -> w' u = w u) -> wsum f w' vs = wsum f w vs.
Proof.
  induction vs as [|x vs IH]; intros H; [reflexivity|].
  rewrite !wsum_cons.
  rewrite IH by (intros; apply H; simpl; auto).
  rewrite (H x) by (simpl; auto). reflexivity.
Qed.

Lemma wsum_count f vs :
  wsum f (fun _ => 1) vs = Z.of_nat (length (filter f vs)).
Proof.
  induction vs as [|x vs IH]; [reflexivity|].
  rewrite wsum_cons, IH. cbn [filter].
  destruct (f x); cbn [length]; lia.
Qed.

Lemma wsum_nonneg f w vs :
  (forall u, In u vs -> 0 <= w u) -> 0 <= wsum f w vs.
Proof.
  induction vs as [|x vs IH]; intros Hw; [unfold wsum; simpl; lia|].
  rewrite wsum_cons.
  specialize (IH (fun u Hu => Hw u (or_intror Hu))).
  specialize (Hw x (or_introl eq_refl)). destruct (f x); lia.
Qed.

Lemma is_pair_sym a b p q : is_pair a b p q = is_pair b a p q.
Proof.
  unfold is_pair.
  rewrite (andb_comm (label_eqb b p)), (andb_comm (label_eqb b q)).
  apply orb_comm.
Qed.

Lemma is_pair_true a b p q :
  is_pair a b p q = true <-> (a = p /\ b = q) \/ (a = q /\ b = p).
Proof.
  unfold is_pair. rewrite orb_true_iff, !andb_true_iff, !label_eqb_eq.
  reflexivity.
Qed.

Lemma is_pair_false a b p q :
  (a <> p \/ b <> q) -> (a <> q \/ b <> p) -> is_pair a b p q = false.
Proof.
  intros H1 H2. destruct (is_pair a b p q) eqn:E; [|reflexivity].
  apply is_pair_true in E. destruct E as [[-> ->]|[-> ->]]; tauto.
Qed.

Lemma set_edge_simple adj p q val :
  simple adj -> p <> q -> simple (set_edge adj p q val).
Proof.
  intros [Hsym Hirr] Hpq. split.
  - intros u w. unfold set_edge. rewrite is_pair_sym, Hsym. reflexivity.
  - intros u. unfold set_edge. rewrite is_pair_false, Hirr; auto.
    + destruct (label_eqb u p) eqn:E;
        [apply label_eqb_eq in E; subst; right; auto
        |apply label_eqb_neq in E; left; auto].
    + destruct (label_eqb u q) eqn:E;
        [apply label_eqb_eq in E; subst; right; auto
        |apply label_eqb_neq in E; left; auto].
Qed.

Lemma set_edge_other adj p q val a b :
  (a <> p \/ b <> q) -> (a <> q \/ b <> p) ->
  set_edge adj p q val a b = adj a b.
Proof. intros H1 H2. unfold set_edge. now rewrite is_pair_false. Qed.

Lemma set_edge_at adj p q val : set_edge adj p q val p q = val.
Proof.
  unfold set_edge, is_pair. now rewrite !label_eqb_refl.
Qed.

Lemma set_edge_at_sym adj p q val : set_edge adj p q val q p = val.
Proof.
  unfold set_edge, is_pair. rewrite !label_eqb_refl. simpl.
  now rewrite orb_true_r.
Qed.

(** What putting in or taking out the edge [p - q] does to the weight of
    the neighbours of [u]. *)
Lemma row_set_edge vs adj p q val u w :
  NoDup vs -> simple adj -> In p vs -> In q vs -> p <> q ->
  wsum (set_edge adj p q val u) w vs
  = wsum (adj u) w vs
    + (if label_eqb u p then (Z.b2z val - Z.b2z (adj p q)) * w q
       else if label_eqb u q then (Z.b2z val - Z.b2z (adj p q)) * w p
       else 0).
Proof.
  intros Hnd [Hsym Hirr] Hp Hq Hpq.
  destruct (label_eqb u p) eqn:Eup.
  - apply label_eqb_eq in Eup. subst u.
    rewrite (wsum_update (adj p) (set_edge adj p q val p) _ vs q Hnd Hq).
    + rewrite set_edge_at. destruct val, (adj p q); cbn [Z.b2z]; lia.
    + intros b Hb. apply set_edge_other; auto.
  - apply label_eqb_neq in Eup. destruct (label_eqb u q) eqn:Euq.
    + apply label_eqb_eq in Euq. subst u.
      rewrite (wsum_update (adj q) (set_edge adj p q val q) _ vs p Hnd Hp).
      * rewrite set_edge_at_sym, (Hsym q p).
        destruct val, (adj p q); cbn [Z.b2z]; lia.
      * intros b Hb. apply set_edge_other; auto.
    + apply label_eqb_neq in Euq. rewrite Z.add_0_r.
      apply wsum_ext. intros b _. apply set_edge_other; auto.
Qed.

Lemma deg_set_edge vs adj p q val u :
  NoDup vs -> simple adj -> In p vs -> In q vs -> p <> q ->
  deg vs (set_edge adj p q val) u
  = deg vs adj u
    + (if label_eqb u p || label_eqb u q
       then Z.b2z val - Z.b2z (adj p q) else 0).
Proof.
  intros Hnd Hs Hp Hq Hpq. unfold deg.
  rewrite row_set_edge by assumption.
  destruct (label_eqb u p), (label_eqb u q); simpl; lia.
Qed.

Section Exchange.

Variable vs : list label.
Variable adj : label -> label -> bool.
Variables v x y z : label.
Hypothesis vs_nodup : NoDup vs.
Hypothesis adj_simple : simple adj.
Hypothesis v_in : In v vs.
Hypothesis x_in : In x vs.
Hypothesis y_in : In y vs.
Hypothesis z_in : In z vs.
Hypothesis vx : v <> x.
Hypothesis vy : v <> y.
Hypothesis vz : v <> z.
Hypothesis xy : x <> y.
Hypothesis xz : x <> z.
Hypothesis yz : y <> z.
Hypothesis adj_vy : adj v y = true.
Hypothesis adj_xz : adj x z = true.
Hypothesis adj_vx : adj v x = false.
Hypothesis adj_yz : adj y z = false.

Let A1 := set_edge adj v y false.
Let A2 := set_edge A1 x z false.
Let A3 := set_edge A2 v x true.

Lemma exchange_steps_simple :
  simple A1 /\ simple A2 /\ simple A3 /\ simple (exchange adj v x y z).
Proof.
  unfold exchange. fold A1 A2 A3.
  assert (H1 : simple A1) by (apply set_edge_simple; auto).
  assert (H2 : simple A2) by (apply set_edge_simple; auto).
  assert (H3 : simple A3) by (apply set_edge_simple; auto).
  repeat split; try (apply H1 || apply H2 || apply H3);
    apply set_edge_simple; auto.
Qed.

Lemma exchange_simple : simple (exchange adj v x y z).
Proof. apply exchange_steps_simple. Qed.

Lemma exchange_steps_values :
  A1 x z = true /\ A2 v x = false /\ A3 y z = false.
Proof.
  unfold A3, A2, A1.
  rewrite !set_edge_other; auto.
Qed.

Lemma exchange_row u w :
  wsum (exchange adj v x y z u) w vs
  = wsum (adj u) w vs
    + (if label_eqb u v then w x - w y
       else if label_eqb u x then w v - w z
       else if label_eqb u y then w z - w v
       else if label_eqb u z then w y - w x
       else 0).
Proof.
  destruct exchange_steps_simple as (H1 & H2 & H3 & _).
  destruct exchange_steps_values as (V1 & V2 & V3).
  unfold exchange. fold A1 A2 A3.
  rewrite (row_set_edge vs A3 y z true u w) by auto. rewrite V3.
  unfold A3 at 1.
  rewrite (row_set_edge vs A2 v x true u w) by auto. rewrite V2.
  unfold A2 at 1.
  rewrite (row_set_edge vs A1 x z false u w) by auto. rewrite V1.
  unfold A1 at 1.
  rewrite (row_set_edge vs adj v y false u w) by auto. rewrite adj_vy.
  destruct (label_eqb u v) eqn:Ev; destruct (label_eqb u x) eqn:Ex;
    destruct (label_eqb u y) eqn:Ey; destruct (label_eqb u z) eqn:Ez;
    repeat match goal with
    | H : label_eqb _ _ = true |- _ => apply label_eqb_eq in H
    end; subst; try congruence; cbn [Z.b2z]; lia.
Qed.

(** The exchange keeps every degree. *)
Lemma exchange_deg u : deg vs (exchange adj v x y z) u = deg vs adj u.
Proof.
  unfold deg. rewrite exchange_row.
  destruct (label_eqb u v), (label_eqb u x), (label_eqb u y),
    (label_eqb u z); lia.
Qed.

End Exchange.

Lemma deg_nonneg vs adj u : 0 <= deg vs adj u.
Proof. unfold deg. apply wsum_nonneg. intros; lia. Qed.

(** A vertex [x] with more neighbours than [y], where [v] is a neighbour
    of [y] and not of [x], has a neighbour [z] that [y] has not. *)
Lemma exchange_partner vs adj v x y :
  NoDup vs -> simple adj -> In v vs -> In y vs ->
  adj v y = true -> adj v x = false ->
  deg vs adj y < deg vs adj x ->
  exists z, In z vs /\ adj x z = true /\ adj y z = false /\ z <> y.
Proof.
  intros Hnd [Hsym Hirr] Hv Hy Hvy Hvx Hlt.
  destruct (existsb (fun z => adj x z && negb (adj y z)
                              && negb (label_eqb z y)) vs) eqn:E.
  - apply existsb_exists in E as (z & Hz & Ht).
    apply andb_true_iff in Ht as [Ht Hzy].
    apply andb_true_iff in Ht as [Hxz Hyz].
    exists z. repeat split; auto.
    + now apply negb_true_iff in Hyz.
    + apply negb_true_iff in Hzy. now apply label_eqb_neq.
  - exfalso.
    assert (Hall : forall z, In z vs -> adj x z = true ->
                     z = y \/ adj y z = true).
    { intros z Hz Hxz.
      destruct (label_eqb z y) eqn:Ezy; [left; now apply label_eqb_eq|].
      destruct (adj y z) eqn:Eyz; [now right|].
      assert (Ht : existsb (fun z => adj x z && negb (adj y z)
                                     && negb (label_eqb z y)) vs = true).
      { apply existsb_exists. exists z. split; [assumption|].
        now rewrite Hxz, Eyz, Ezy. }
      congruence. }
    assert (Hvy' : v <> y) by (intros ->; rewrite Hirr in Hvy; discriminate).
    set (h1 := fun z => adj y z && negb (label_eqb z v)).
    set (h := fun z => h1 z || label_eqb z y).
    assert (H1 : wsum h1 (fun _ => 1) vs = deg vs adj y - 1).
    { unfold deg.
      rewrite (wsum_update (adj y) h1 _ vs v Hnd Hv).
      - unfold h1. rewrite label_eqb_refl. cbn [negb].
        rewrite andb_false_r, (Hsym y v), Hvy. lia.
      - intros u Hu. unfold h1.
        apply label_eqb_neq in Hu. rewrite Hu. apply andb_true_r. }
    assert (H2 : wsum h (fun _ => 1) vs = deg vs adj y).
    { rewrite (wsum_update h1 h _ vs y Hnd Hy).
      - rewrite H1. unfold h, h1.
        rewrite label_eqb_refl, orb_true_r, Hirr. cbn [andb]. lia.
      - intros u Hu. unfold h.
        apply label_eqb_neq in Hu. rewrite Hu. apply orb_false_r. }
    assert (H3 : deg vs adj x <= wsum h (fun _ => 1) vs).
    { unfold deg. apply wsum_mono; [intros; lia|].
      intros z Hz Hxz. unfold h, h1.
      destruct (Hall z Hz Hxz) as [->|Hyz].
      - rewrite label_eqb_refl. apply orb_true_r.
      - rewrite Hyz. simpl.
        assert (Hzv : z <> v)
          by (intros ->; rewrite (Hsym x v), Hvx in Hxz; discriminate).
        apply label_eqb_neq in Hzv. now rewrite Hzv. }
    lia.
Qed.

Lemma neighbour_weight_le vs adj v :
  neighbour_weight vs adj v <= total_weight vs adj.
Proof.
  apply wsum_mono; [intros; apply deg_nonneg|reflexivity].
Qed.

Lemma no_bad_pair_dominant vs adj v :
  existsb (bad_pair vs adj v) (list_prod vs vs) = false ->
  dominant vs adj v.
Proof.
  intros E x y Hx Hy Hxv Hvy Hvx.
  destruct (Z.le_gt_cases (deg vs adj x) (deg vs adj y)) as [H|H];
    [assumption|exfalso].
  assert (Ht : existsb (bad_pair vs adj v) (list_prod vs vs) = true).
  { apply existsb_exists. exists (x, y). split; [now apply in_prod|].
    unfold bad_pair. simpl. rewrite Hvy, Hvx.
    apply label_eqb_neq in Hxv. rewrite Hxv. simpl. now apply Z.ltb_lt. }
  congruence.
Qed.

(** One exchange: the degrees stay, the neighbours of [v] get heavier. *)
Lemma exchange_improves vs adj v x y :
  NoDup vs -> simple adj -> In v vs -> In x vs -> In y vs -> x <> v ->
  adj v y = true -> adj v x = false ->
  deg vs adj y < deg vs adj x ->
  exists adj', simple adj'
    /\ (forall u, deg vs adj' u = deg vs adj u)
    /\ neighbour_weight vs adj v < neighbour_weight vs adj' v.
Proof.
  intros Hnd Hs Hv Hx Hy Hxv Hvy Hvx Hlt.
  destruct (exchange_partner vs adj v x y Hnd Hs Hv Hy Hvy Hvx Hlt)
    as (z & Hz & Hxz & Hyz & Hzy).
  pose proof Hs as [Hsym Hirr].
  assert (Hvy' : v <> y) by (intros ->; rewrite Hirr in Hvy; discriminate).
  assert (Hxy : x <> y) by (intros ->; congruence).
  assert (Hvz : v <> z)
    by (intros <-; rewrite (Hsym x v), Hvx in Hxz; discriminate).
  assert (Hxz' : x <> z) by (intros <-; rewrite Hirr in Hxz; discriminate).
  exists (exchange adj v x y z).
  assert (Hdeg : forall u, deg vs (exchange adj v x y z) u = deg vs adj u)
    by (intros u; apply exchange_deg; auto).
  split; [|split; [exact Hdeg|]].
  - apply exchange_simple; auto.
  - unfold neighbour_weight.
    rewrite (wsum_ext_weight (exchange adj v x y z v) (deg vs adj)
               (deg vs (exchange adj v x y z)) vs) by (intros; apply Hdeg).
    rewrite exchange_row by auto.
    rewrite label_eqb_refl. lia.
Qed.

(** Exchanges, repeated, make the neighbourhood of [v] dominant. *)
Lemma make_dominant vs v :
  NoDup vs -> In v vs ->
  forall (m : nat) adj,
    simple adj ->
    total_weight vs adj - neighbour_weight vs adj v <= Z.of_nat m ->
    exists adj', simple adj'
      /\ (forall u, deg vs adj' u = deg vs adj u)
      /\ dominant vs adj' v.
Proof.
  intros Hnd Hv. induction m as [|m IH]; intros adj Hs Hm.
  - destruct (existsb (bad_pair vs adj v) (list_prod vs vs)) eqn:E.
    + apply existsb_exists in E as ([x y] & Hin & Ht).
      apply in_prod_iff in Hin as [Hx Hy]. unfold bad_pair in Ht. simpl in Ht.
      repeat (apply andb_true_iff in Ht as [Ht ?]).
      destruct (exchange_improves vs adj v x y) as (adj' & Hs' & Hdeg & Hw);
        auto.
      * apply label_eqb_neq. now apply negb_true_iff.
      * now apply negb_true_iff.
      * now apply Z.ltb_lt.
      * pose proof (neighbour_weight_le vs adj' v) as Hle.
        assert (total_weight vs adj' = total_weight vs adj)
          by (apply wsum_ext_weight; intros; apply Hdeg).
        lia.
    + exists adj. repeat split; try apply Hs.
      now apply no_bad_pair_dominant.
  - destruct (existsb (bad_pair vs adj v) (list_prod vs vs)) eqn:E.
    + apply existsb_exists in E as ([x y] & Hin & Ht).
      apply in_prod_iff in Hin as [Hx Hy]. unfold bad_pair in Ht. simpl in Ht.
      repeat (apply andb_true_iff in Ht as [Ht ?]).
      destruct (exchange_improves vs adj v x y) as (adj' & Hs' & Hdeg & Hw);
        auto.
      * apply label_eqb_neq. now apply negb_true_iff.
      * now apply negb_true_iff.
      * now apply Z.ltb_lt.
      * assert (Ht' : total_weight vs adj' = total_weight vs adj)
          by (apply wsum_ext_weight; intros; apply Hdeg).
        destruct (IH adj' Hs' ltac:(lia)) as (adj'' & Hs'' & Hdeg' & Hdom).
        exists adj''. repeat split; try apply Hs''; [|assumption].
        intros u. now rewrite Hdeg', Hdeg.
    + exists adj. repeat split; try apply Hs.
      now apply no_bad_pair_dominant.
Qed.

(** ** Deleting a vertex *)

Lemma wsum_filter f g w vs :
  wsum f w (filter g vs) = wsum (fun u => f u && g u) w vs.
Proof.
  induction vs as [|x vs IH]; [reflexivity|].
  cbn [filter]. destruct (g x) eqn:E.
  - rewrite !wsum_cons, IH, E, andb_true_r. reflexivity.
  - rewrite wsum_cons, IH, E, andb_false_r. lia.
Qed.

Lemma deg_without vs adj v u :
  NoDup vs -> In v vs ->
  deg (without v vs) adj u = deg vs adj u - Z.b2z (adj u v).
Proof.
  intros Hnd Hv. unfold deg, without. rewrite wsum_filter.
  rewrite (wsum_update (adj u) _ _ vs v Hnd Hv).
  - rewrite label_eqb_refl. cbn [negb]. rewrite andb_false_r.
    destruct (adj u v); cbn [Z.b2z]; lia.
  - intros b Hb. apply label_eqb_neq in Hb. rewrite Hb. apply andb_true_r.
Qed.

Lemma without_perm vs v :
  NoDup vs -> In v vs -> Permutation vs (v :: without v vs).
Proof.
  intros Hnd. induction Hnd as [|x vs Hx Hnd IH]; intros Hin; [destruct Hin|].
  unfold without. cbn [filter]. destruct Hin as [->|Hin].
  - rewrite label_eqb_refl. cbn [negb]. apply perm_skip.
    rewrite (proj2 (filter_ext_in_iff _ (fun _ => true) vs)).
    + clear. induction vs; simpl; auto.
    + intros u Hu. apply negb_true_iff, label_eqb_neq. intros ->.
      contradiction.
  - assert (Hxv : x <> v) by (intros ->; contradiction).
    apply label_eqb_neq in Hxv. rewrite Hxv. cbn [negb].
    rewrite perm_swap. apply perm_skip. now apply IH.
Qed.

Lemma filter_partition (f : label -> bool) (l : list label) :
  Permutation l (filter f l ++ filter (fun u => negb (f u)) l).
Proof.
  induction l as [|x l IH]; [constructor|].
  cbn [filter]. destruct (f x); cbn [negb app].
  - now apply perm_skip.
  - now apply Permutation_cons_app.
Qed.

(** ** Sorted lists *)

Lemma descending_unique (l1 l2 : list Z) :
  StronglySorted Z.ge l1 -> StronglySorted Z.ge l2 ->
  Permutation l1 l2 -> l1 = l2.
Proof.
  intros H1. revert l2.
  induction H1 as [|x1 l1 Hs1 IH Hall1]; intros l2 H2 Hp.
  - apply Permutation_nil in Hp. now subst.
  - destruct H2 as [|x2 l2 Hs2 Hall2].
    + apply Permutation_sym, Permutation_nil in Hp. discriminate.
    + assert (Hx : x1 = x2).
      { assert (Hin1 : In x1 (x2 :: l2))
          by (eapply Permutation_in; [exact Hp|now left]).
        assert (Hin2 : In x2 (x1 :: l1))
          by (eapply Permutation_in; [symmetry; exact Hp|now left]).
        rewrite Forall_forall in Hall1, Hall2.
        destruct Hin1 as [->|Hin1]; [reflexivity|].
        destruct Hin2 as [->|Hin2]; [reflexivity|].
        specialize (Hall1 _ Hin2). specialize (Hall2 _ Hin1). lia. }
      subst x2. f_equal. apply IH; [assumption|].
      eapply Permutation_cons_inv; exact Hp.
Qed.

Lemma descending_app (l1 l2 : list Z) :
  StronglySorted Z.ge l1 -> StronglySorted Z.ge l2 ->
  (forall a b, In a l1 -> In b l2 -> b <= a) ->
  StronglySorted Z.ge (l1 ++ l2).
Proof.
  intros H1 H2 Hab. induction H1 as [|x l1 Hs IH Hall]; [assumption|].
  cbn [app]. constructor.
  - apply IH. intros a b Ha Hb. apply Hab; [now right|assumption].
  - apply Forall_app. split; [assumption|].
    apply Forall_forall. intros b Hb.
    specialize (Hab x b (or_introl eq_refl) Hb). lia.
Qed.

(** In a descending list, a part of it whose numbers are at least the
    others is its beginning. *)
Lemma descending_split (rest A B : list Z) :
  StronglySorted Z.ge rest ->
  Permutation (A ++ B) rest ->
  (forall a b, In a A -> In b B -> b <= a) ->
  Permutation (firstn (length A) rest) A
  /\ Permutation (skipn (length A) rest) B.
Proof.
  intros Hs Hp Hab.
  assert (E : rest = sort_reverse A ++ sort_reverse B).
  { apply descending_unique; [assumption| |].
    - apply descending_app; try apply sort_reverse_descending.
      intros a b Ha Hb. apply Hab.
      + eapply Permutation_in; [symmetry; apply sort_reverse_perm|exact Ha].
      + eapply Permutation_in; [symmetry; apply sort_reverse_perm|exact Hb].
    - rewrite <- Hp. apply Permutation_app; apply sort_reverse_perm. }
  rewrite E. rewrite <- (sort_reverse_length A).
  rewrite firstn_app, firstn_all, Nat.sub_diag, firstn_O, app_nil_r.
  rewrite skipn_app, skipn_all, Nat.sub_diag, skipn_O. cbn [app].
  split; symmetry; apply sort_reverse_perm.
Qed.

Lemma deg_positive vs adj u v :
  In v vs -> adj u v = true -> 1 <= deg vs adj u.
Proof.
  intros Hin Huv. unfold deg.
  induction vs as [|x vs IH]; [destruct Hin|].
  rewrite wsum_cons.
  pose proof (wsum_nonneg (adj u) (fun _ => 1) vs ltac:(intros; lia)).
  destruct Hin as [->|Hin].
  - rewrite Huv. lia.
  - specialize (IH Hin). destruct (adj u x); lia.
Qed.

(** ** The Havel-Hakimi step keeps a sequence graphic *)

Lemma graphic_step (d : Z) (rest : list Z) :
  graphic (d :: rest) -> StronglySorted Z.ge rest ->
  graphic (residue_step d rest)
  /\ 0 <= d
  /\ (Z.to_nat d <= length rest)%nat
  /\ Forall (fun k => 1 <= k) (firstn (Z.to_nat d) rest).
Proof.
  intros (vs & adj0 & Hnd & Hs0 & Hp0) Hsorted.
  assert (Hd : In d (map (deg vs adj0) vs))
    by (eapply Permutation_in; [symmetry; exact Hp0|now left]).
  apply in_map_iff in Hd as (v & Hdv & Hv).
  destruct (make_dominant vs v Hnd Hv
              (Z.to_nat (total_weight vs adj0 - neighbour_weight vs adj0 v))
              adj0 Hs0 ltac:(lia))
    as (adj & Hs & Hdeg & Hdom).
  assert (Hp : Permutation (map (deg vs adj) vs) (d :: rest)).
  { rewrite (map_ext _ _ Hdeg). exact Hp0. }
  rewrite <- Hdeg in Hdv. clear Hp0 Hdeg Hs0 adj0.
  pose proof Hs as [Hsym Hirr].
  set (D := deg vs adj) in *.
  set (vs' := without v vs).
  set (N := filter (adj v) vs').
  set (M := filter (fun u => negb (adj v u)) vs').
  assert (Hin' : forall u, In u vs' -> In u vs /\ u <> v).
  { intros u Hu. apply filter_In in Hu as [Hu Hne]. split; [assumption|].
    apply label_eqb_neq. now apply negb_true_iff. }
  assert (Hpart : Permutation vs' (N ++ M)) by apply filter_partition.
  assert (Hrest : Permutation (map D N ++ map D M) rest).
  { rewrite <- map_app, <- Hpart.
    apply (Permutation_cons_inv (a := d)). rewrite <- Hp.
    rewrite <- Hdv. change (D v :: map D vs') with (map D (v :: vs')).
    apply Permutation_map. symmetry. now apply without_perm. }
  assert (Hdom' : forall a b, In a (map D N) -> In b (map D M) -> b <= a).
  { intros a b Ha Hb.
    apply in_map_iff in Ha as (y & <- & Hy).
    apply in_map_iff in Hb as (x & <- & Hx).
    apply filter_In in Hy as [Hy Hvy]. apply filter_In in Hx as [Hx Hvx].
    apply negb_true_iff in Hvx.
    destruct (Hin' x Hx) as [Hx' Hxv]. destruct (Hin' y Hy) as [Hy' _].
    now apply Hdom. }
  destruct (descending_split rest (map D N) (map D M) Hsorted Hrest Hdom')
    as [Hfirst Hskip].
  assert (HdN : d = Z.of_nat (length N)).
  { rewrite <- Hdv. unfold D, N.
    rewrite <- wsum_count. fold (deg vs' adj v). unfold vs'.
    rewrite deg_without by assumption. rewrite Hirr. cbn [Z.b2z]. lia. }
  assert (HN : Z.to_nat d = length (map D N))
    by (rewrite length_map; lia).
  rewrite <- HN in Hfirst, Hskip.
  split; [|split; [|split]].
  - exists vs', adj. split; [apply NoDup_filter; assumption|].
    split; [assumption|].
    unfold residue_step. rewrite <- sort_reverse_perm.
    rewrite Hfirst, Hskip.
    apply Permutation_trans with (map (deg vs' adj) (N ++ M));
      [apply Permutation_map; exact Hpart|].
    rewrite map_app, map_map. apply Permutation_app.
    + apply Permutation_refl'. apply map_ext_in. intros u Hu.
      apply filter_In in Hu as [Hu Hvu]. unfold vs'.
      rewrite deg_without by assumption.
      rewrite (Hsym u v), Hvu. reflexivity.
    + apply Permutation_refl'. apply map_ext_in. intros u Hu.
      apply filter_In in Hu as [Hu Hvu]. apply negb_true_iff in Hvu.
      unfold vs'. rewrite deg_without by assumption.
      rewrite (Hsym u v), Hvu. cbn [Z.b2z]. unfold D. lia.
  - rewrite <- Hdv. apply deg_nonneg.
  - rewrite HN, <- (Permutation_length Hrest), length_app. lia.
  - eapply Permutation_Forall; [symmetry; exact Hfirst|].
    apply Forall_forall. intros a Ha.
    apply in_map_iff in Ha as (y & <- & Hy).
    apply filter_In in Hy as [Hy Hvy]. destruct (Hin' y Hy) as [Hy' _].
    apply (deg_positive vs adj y v Hv). now rewrite Hsym.
Qed.

Lemma graphic_nonneg (s : list Z) : graphic s -> Forall (fun k => 0 <= k) s.
Proof.
  intros (vs & adj & _ & _ & Hp).
  eapply Permutation_Forall; [exact Hp|].
  apply Forall_forall. intros k Hk.
  apply in_map_iff in Hk as (u & <- & _). apply deg_nonneg.
Qed.

(** The degrees of a simple graph are a graphic sequence. *)
Lemma has_edge_simple (g : graph) : wf g -> simple (has_edge g).
Proof.
  intros [_ Hedges]. split.
  - clear Hedges. intros u w. unfold has_edge.
    assert (Hj : forall e, joins u w e = joins w u e)
      by (intros e; unfold joins; apply orb_comm).
    induction (edges g) as [|e es IH]; [reflexivity|].
    cbn [existsb]. now rewrite IH, Hj.
  - intros u. unfold has_edge.
    destruct (existsb (joins u u) (edges g)) eqn:E; [|reflexivity].
    apply existsb_exists in E as ([a b] & Hin & Hj).
    unfold joins in Hj. simpl in Hj. rewrite orb_diag in Hj.
    apply andb_true_iff in Hj as [Ha Hb].
    apply label_eqb_eq in Ha, Hb. subst.
    destruct (Hedges u u Hin) as [Hne _]. contradiction.
Qed.

Lemma degree_sequence_graphic (g : graph) :
  wf g -> graphic (degree_sequence g).
Proof.
  intros Hwf. exists (vertices g), (has_edge g).
  split; [apply Hwf|]. split; [now apply has_edge_simple|].
  unfold degree_sequence. rewrite <- sort_reverse_perm.
  apply Permutation_refl'. unfold degree. apply map_ext. intros u.
  unfold deg, degree_of. apply wsum_count.
Qed.

Lemma residue_loop_graphic (seq : list Z) :
  graphic seq -> StronglySorted Z.ge seq -> seq <> [] ->
  exists final,
    hh_reduces seq final
    /\ Forall (fun k => k = 0) final
    /\ residue_loop seq = Ok (Z.of_nat (length final)).
Proof.
  funelim (residue_loop seq); intros Hg Hs Hne.
  - contradiction.
  - apply Z.ltb_lt in Heq.
    inversion Hs as [|? ? Hs' Hall]; subst.
    destruct (graphic_step d seq' Hg Hs') as (Hg' & _ & Hlen & _).
    destruct H as (final & Hred & Hzero & Hres).
    + exact Hg'.
    + apply sort_reverse_descending.
    + intros E. apply (f_equal (@length Z)) in E.
      rewrite residue_step_length in E. simpl in E. lia.
    + exists final. split; [|split; assumption].
      apply hh_next; try assumption.
      eapply Forall_impl; [|exact Hall]. intros; lia.
  - apply Z.ltb_ge in Heq.
    pose proof (graphic_nonneg _ Hg) as Hpos.
    inversion Hs as [|? ? Hs' Hall]; subst.
    inversion Hpos as [|? ? Hd Hpos']; subst.
    assert (d = 0) by lia. subst d.
    exists (0 :: seq'). split; [constructor|]. split; [|reflexivity].
    constructor; [reflexivity|].
    rewrite Forall_forall in *. intros k Hk.
    specialize (Hall k Hk). specialize (Hpos' k Hk). lia.
Qed.

(** C10: on a simple graph with at least one vertex [residue] returns,
    and what it returns is the length of the sequence that the
    Havel-Hakimi reduction of the descending degree sequence ends in:
    the largest entry [d] is removed, the next [d] entries are
    decremented and the list is sorted again, until the head is 0 (all
    that remains is then 0). *)
Theorem residue_havel_hakimi (g : graph) :
  wf g -> vertices g <> [] ->
  exists final,
    hh_reduces (degree_sequence g) final
    /\ Forall (fun k => k = 0) final
    /\ residue g = Ok (inject_Z (Z.of_nat (length final))).
Proof.
  intros Hwf Hne.
  destruct (residue_loop_graphic (degree_sequence g)) as (final & H1 & H2 & H3).
  - now apply degree_sequence_graphic.
  - apply sort_reverse_descending.
  - intros E. apply (f_equal (@length Z)) in E.
    unfold degree_sequence, degree in E.
    rewrite sort_reverse_length, length_map in E.
    destruct (vertices g); [contradiction|discriminate].
  - exists final. repeat split; try assumption.
    unfold residue, residue_Z. rewrite H3. reflexivity.
Qed.

Lemma residue_havel_hakimi_witness :
  wf PathGraph3 /\ vertices PathGraph3 <> []
  /\ exists final,
       hh_reduces (degree_sequence PathGraph3) final
       /\ Forall (fun k => k = 0) final
       /\ residue PathGraph3 = Ok (inject_Z (Z.of_nat (length final))).
Proof.
  assert (Hwf : wf PathGraph3) by (apply wfb_sound; reflexivity).
  assert (Hne : vertices PathGraph3 <> []) by discriminate.
  split; [exact Hwf|]. split; [exact Hne|].
  exact (residue_havel_hakimi PathGraph3 Hwf Hne).
Defined.

(** ** What the aggregators compute *)

Lemma Qltb_irrefl (x : Q) : Qltb x x = false.
Proof. unfold Qltb. apply Z.ltb_irrefl. Qed.

Lemma lower_loop_one_pass cls self func funcs lbound :
  lower_loop cls self (func :: funcs) lbound
  = lower_pass (call_attr cls self "func") lbound.
Proof.
  revert func lbound. induction funcs as [|f funcs IH]; intros func lbound.
  - cbn [lower_loop]. unfold lower_pass.
    destruct (call_attr cls self "func") as [q|e]; [reflexivity|].
    destruct (exn_is_ValueError e); reflexivity.
  - change (lower_loop cls self (func :: f :: funcs) lbound)
      with (match call_attr cls self "func" with
            | Ok new_bound =>
                lower_loop cls self (f :: funcs)
                  (if Qltb lbound new_bound then new_bound else lbound)
            | Raise e =>
                if exn_is_ValueError e
                then lower_loop cls self (f :: funcs) lbound else Raise e
            end).
    destruct (call_attr cls self "func") as [q|e] eqn:Ec.
    + rewrite IH. unfold lower_pass.
      destruct (Qltb lbound q) eqn:E; [now rewrite Qltb_irrefl|now rewrite E].
    + unfold lower_pass. destruct (exn_is_ValueError e) eqn:E; [|reflexivity].
      rewrite IH. unfold lower_pass. now rewrite E.
Qed.

Lemma upper_loop_one_pass cls self func funcs ubound :
  upper_loop cls self (func :: funcs) ubound
  = upper_pass (call_attr cls self "func") ubound.
Proof.
  revert func ubound. induction funcs as [|f funcs IH]; intros func ubound.
  - cbn [upper_loop]. unfold upper_pass.
    destruct (call_attr cls self "func") as [q|e]; [reflexivity|].
    destruct (exn_is_ValueError e); reflexivity.
  - change (upper_loop cls self (func :: f :: funcs) ubound)
      with (match call_attr cls self "func" with
            | Ok new_bound =>
                upper_loop cls self (f :: funcs)
                  (if Qltb new_bound ubound then new_bound else ubound)
            | Raise e =>
                if exn_is_ValueError e
                then upper_loop cls self (f :: funcs) ubound else Raise e
            end).
    destruct (call_attr cls self "func") as [q|e] eqn:Ec.
    + rewrite IH. unfold upper_pass.
      destruct (Qltb q ubound) eqn:E; [now rewrite Qltb_irrefl|now rewrite E].
    + unfold upper_pass. destruct (exn_is_ValueError e) eqn:E; [|reflexivity].
      rewrite IH. unfold upper_pass. now rewrite E.
Qed.

Lemma alpha_loop_one_pass cls self func funcs :
  alpha_loop cls self (func :: funcs)
  = alpha_pass (call_attr cls self "func").
Proof.
  revert func. induction funcs as [|f funcs IH]; intros func.
  - cbn [alpha_loop]. unfold alpha_pass.
    destruct (call_attr cls self "func") as [q|e].
    + destruct (truthy q); reflexivity.
    + destruct (exn_is_ValueError e); reflexivity.
  - change (alpha_loop cls self (func :: f :: funcs))
      with (match call_attr cls self "func" with
            | Ok p => if truthy p then Ok true
                      else alpha_loop cls self (f :: funcs)
            | Raise e =>
                if exn_is_ValueError e
                then alpha_loop cls self (f :: funcs) else Raise e
            end).
    destruct (call_attr cls self "func") as [q|e] eqn:Ec.
    + unfold alpha_pass. destruct (truthy q) eqn:E; [reflexivity|].
      rewrite IH. unfold alpha_pass. now rewrite E.
    + unfold alpha_pass. destruct (exn_is_ValueError e) eqn:E; [|reflexivity].
      rewrite IH. unfold alpha_pass. now rewrite E.
Qed.

(** X1: Of a registry only its being empty or not matters: whatever is
    registered, and however many, a registry that is not empty makes the
    aggregator return what one pass on the outcome of [self.func()]
    gives. *)
Theorem aggregators_one_pass (cls : klass) (g : graph) :
  (lower_bounds cls <> [] ->
   best_lower_bound cls g = lower_pass (call_attr cls g "func") 1%Q)
  /\ (upper_bounds cls <> [] ->
      best_upper_bound cls g
      = upper_pass (call_attr cls g "func") (inject_Z (order g)))
  /\ (alpha_properties cls <> [] ->
      has_alpha_property cls g = alpha_pass (call_attr cls g "func")).
Proof.
  unfold best_lower_bound, best_upper_bound, has_alpha_property.
  split; [|split]; intros Hne.
  - destruct (lower_bounds cls); [contradiction|apply lower_loop_one_pass].
  - destruct (upper_bounds cls); [contradiction|apply upper_loop_one_pass].
  - destruct (alpha_properties cls); [contradiction|apply alpha_loop_one_pass].
Qed.

Lemma aggregators_one_pass_witness :
  upper_bounds KwokBorgGraph <> []
  /\ best_upper_bound KwokBorgGraph CompleteGraph3 = Ok (3 # 2)%Q
  /\ best_lower_bound KwokBorgGraph CompleteGraph3 = Ok (3 # 2)%Q.
Proof.
  destruct (aggregators_one_pass KwokBorgGraph CompleteGraph3)
    as (Hl & Hu & _).
  split; [discriminate|]. split.
  - rewrite Hu by discriminate. reflexivity.
  - rewrite Hl by discriminate. reflexivity.
Defined.

Lemma Qltb_false_le (x y : Q) : Qltb x y = false -> (y <= x)%Q.
Proof. unfold Qltb, Qle. intros H. apply Z.ltb_ge in H. exact H. Qed.

Lemma lower_loop_ge cls self funcs lbound l :
  lower_loop cls self funcs lbound = Ok l -> (lbound <= l)%Q.
Proof.
  revert lbound. induction funcs as [|f funcs IH]; intros lbound; cbn [lower_loop].
  - intros [= ->]. apply Qle_refl.
  - destruct (call_attr cls self "func") as [q|e].
    + intros H. apply IH in H.
      destruct (Qltb lbound q) eqn:E; [|assumption].
      apply Qltb_lt in E. eapply Qle_trans; [apply Qlt_le_weak; exact E|exact H].
    + destruct (exn_is_ValueError e); [apply IH|discriminate].
Qed.

Lemma upper_loop_le cls self funcs ubound u :
  upper_loop cls self funcs ubound = Ok u -> (u <= ubound)%Q.
Proof.
  revert ubound. induction funcs as [|f funcs IH]; intros ubound; cbn [upper_loop].
  - intros [= ->]. apply Qle_refl.
  - destruct (call_attr cls self "func") as [q|e].
    + intros H. apply IH in H.
      destruct (Qltb q ubound) eqn:E; [|assumption].
      apply Qltb_lt in E. eapply Qle_trans; [exact H|apply Qlt_le_weak; exact E].
    + destruct (exn_is_ValueError e); [apply IH|discriminate].
Qed.

(** X2: The aggregated bounds never leave the defaults' envelope: a lower
    bound that is returned is at least 1, an upper bound at most the
    order; so a graph of order 0 is reported "not difficult" only through
    an alpha property, never through its bounds. *)
Theorem aggregated_bounds_envelope (cls : klass) (g : graph) :
  (forall l, best_lower_bound cls g = Ok l -> (1 <= l)%Q /\ 1 <= Qceiling l)
  /\ (forall u, best_upper_bound cls g = Ok u ->
        (u <= inject_Z (order g))%Q /\ Qfloor u <= order g)
  /\ (order g = 0 -> is_difficult cls g = Ok false ->
      has_alpha_property cls g = Ok true).
Proof.
  assert (Hlow : forall l, best_lower_bound cls g = Ok l ->
                   (1 <= l)%Q /\ 1 <= Qceiling l).
  { intros l H. apply lower_loop_ge in H. split; [assumption|].
    change 1 with (Qceiling 1). now apply Qceiling_resp_le. }
  assert (Hup : forall u, best_upper_bound cls g = Ok u ->
                  (u <= inject_Z (order g))%Q /\ Qfloor u <= order g).
  { intros u H. apply upper_loop_le in H. split; [assumption|].
    rewrite <- (Qfloor_Z (order g)). now apply Qfloor_resp_le. }
  split; [exact Hlow|]. split; [exact Hup|].
  intros Hn. unfold is_difficult.
  destruct (has_alpha_property cls g) as [[|]|e]; cbn [bind];
    [reflexivity| |discriminate].
  destruct (best_lower_bound cls g) as [l|e] eqn:El; cbn [bind];
    [|discriminate].
  destruct (best_upper_bound cls g) as [u|e] eqn:Eu; cbn [bind];
    [|discriminate].
  destruct (Hlow l eq_refl) as [_ H1]. destruct (Hup u eq_refl) as [_ H2].
  destruct (Z.eqb_spec (Qceiling l) (Qfloor u)) as [E|_]; [lia|discriminate].
Qed.

Lemma aggregated_bounds_envelope_witness :
  best_upper_bound KwokBorgGraph CompleteGraph3 = Ok (3 # 2)%Q
  /\ ((3 # 2) <= inject_Z (order CompleteGraph3))%Q
  /\ Qfloor (3 # 2) <= order CompleteGraph3.
Proof.
  split; [reflexivity|].
  exact (proj1 (proj2 (aggregated_bounds_envelope KwokBorgGraph
                         CompleteGraph3)) (3 # 2)%Q eq_refl).
Defined.

(** ** Degrees *)

Lemma fold_left_min_le (l : list Z) (x : Z) :
  fold_left Z.min l x <= x /\ forall y, In y l -> fold_left Z.min l x <= y.
Proof.
  revert x. induction l as [|z l IH]; intros x; simpl.
  - split; [lia|]. intros y [].
  - destruct (IH (Z.min x z)) as [H1 H2]. split; [lia|].
    intros y [<-|Hy]; [lia|]. now apply H2.
Qed.

Lemma fold_left_min_in (l : list Z) (x : Z) :
  fold_left Z.min l x = x \/ In (fold_left Z.min l x) l.
Proof.
  revert x. induction l as [|z l IH]; intros x; simpl; [now left|].
  destruct (IH (Z.min x z)) as [H|H]; [|now right; right].
  rewrite H. destruct (Z.min_spec x z) as [[_ ->]|[_ ->]]; auto.
Qed.

Lemma py_min_spec (l : list Z) (m : Z) :
  py_min l = Ok m <-> In m l /\ forall y, In y l -> m <= y.
Proof.
  destruct l as [|x l]; simpl.
  - split; [discriminate|]. intros [[] _].
  - destruct (fold_left_min_le l x) as [H1 H2].
    destruct (fold_left_min_in l x) as [H3|H3].
    + split.
      * intros [= <-]. split; [left; congruence|].
        intros y [<-|Hy]; auto.
      * intros [Hin Hmin]. f_equal. apply Z.le_antisymm.
        -- destruct Hin as [<-|Hin]; auto.
        -- apply Hmin. left. congruence.
    + split.
      * intros [= <-]. split; [now right|].
        intros y [<-|Hy]; auto.
      * intros [Hin Hmin]. f_equal. apply Z.le_antisymm.
        -- destruct Hin as [<-|Hin]; auto.
        -- apply Hmin. now right.
Qed.

Lemma degree_of_deg (g : graph) (v : label) :
  degree_of g v = deg (vertices g) (has_edge g) v.
Proof. unfold degree_of, deg. symmetry. apply wsum_count. Qed.

Lemma deg_le_length vs adj u : deg vs adj u <= Z.of_nat (length vs).
Proof.
  unfold deg. rewrite wsum_count.
  pose proof (filter_length_le (adj u) vs). lia.
Qed.

(** In a simple graph a vertex has fewer neighbours than there are
    vertices. *)
Lemma degree_of_lt_order (g : graph) (v : label) :
  wf g -> In v (vertices g) -> degree_of g v <= order g - 1.
Proof.
  intros Hwf Hv. pose proof (has_edge_simple g Hwf) as [_ Hirr].
  destruct Hwf as [Hnd _].
  rewrite degree_of_deg.
  pose proof (deg_without (vertices g) (has_edge g) v v Hnd Hv) as H.
  rewrite Hirr in H. cbn [Z.b2z] in H.
  pose proof (deg_le_length (without v (vertices g)) (has_edge g) v) as Hle.
  pose proof (Permutation_length (without_perm (vertices g) v Hnd Hv)) as Hl.
  cbn [length] in Hl. unfold order. lia.
Qed.

(** X3: [max_degree] and [min_degree] raise [ValueError] exactly on the graph
    without vertices; otherwise they return the largest and the smallest
    degree, which lie between 0 and, in a simple graph, the order less
    one. *)
Theorem max_min_degree_spec (g : graph) :
  (vertices g = [] ->
   max_degree g = Raise ValueError /\ min_degree g = Raise ValueError)
  /\ (vertices g <> [] ->
      exists Delta delta,
        max_degree g = Ok Delta /\ min_degree g = Ok delta
        /\ In Delta (degree g) /\ In delta (degree g)
        /\ (forall d, In d (degree g) -> delta <= d <= Delta)
        /\ 0 <= delta
        /\ (wf g -> Delta <= order g - 1)).
Proof.
  split.
  - unfold max_degree, min_degree, degree. intros ->. split; reflexivity.
  - intros Hne.
    assert (Hd : degree g <> []).
    { unfold degree. destruct (vertices g); [contradiction|discriminate]. }
    destruct (py_max (degree g)) as [Delta|e] eqn:Emax;
      [|destruct (degree g); [contradiction|discriminate]].
    destruct (py_min (degree g)) as [delta|e] eqn:Emin;
      [|destruct (degree g); [contradiction|discriminate]].
    exists Delta, delta.
    destruct (proj1 (py_max_spec _ _) Emax) as [Hmax1 Hmax2].
    destruct (proj1 (py_min_spec _ _) Emin) as [Hmin1 Hmin2].
    split; [exact Emax|]. split; [exact Emin|].
    split; [exact Hmax1|]. split; [exact Hmin1|].
    split; [intros d Hd'; split; auto|].
    split.
    + eapply degree_nonneg; eauto.
    + intros Hwf. unfold degree in Hmax1.
      apply in_map_iff in Hmax1 as (v & <- & Hv).
      now apply degree_of_lt_order.
Qed.

Lemma max_min_degree_spec_witness :
  vertices StarGraph3 <> []
  /\ exists Delta delta,
       max_degree StarGraph3 = Ok Delta /\ min_degree StarGraph3 = Ok delta
       /\ In Delta (degree StarGraph3) /\ In delta (degree StarGraph3)
       /\ (forall d, In d (degree StarGraph3) -> delta <= d <= Delta)
       /\ 0 <= delta
       /\ (wf StarGraph3 -> Delta <= order StarGraph3 - 1).
Proof.
  split; [discriminate|].
  apply (max_min_degree_spec StarGraph3). discriminate.
Defined.

(** ** The bipartite double cover *)

Lemma has_edge_double_cover (g : graph) (u w : label) (i j : Z) :
  has_edge (bipartite_double_cover g) (LPair u (LInt i)) (LPair w (LInt j))
  = has_edge g u w && opposite_sides i j.
Proof.
  unfold has_edge, bipartite_double_cover. cbn [edges].
  induction (edges g) as [|[a b] es IH]; [reflexivity|].
  cbn [flat_map app existsb]. rewrite IH. clear IH.
  unfold joins, opposite_sides. cbn [fst snd label_eqb].
  rewrite (Z.eqb_sym 0 i), (Z.eqb_sym 1 i), (Z.eqb_sym 0 j), (Z.eqb_sym 1 j).
  destruct (Z.eqb_spec i 0), (Z.eqb_spec i 1), (Z.eqb_spec j 0),
    (Z.eqb_spec j 1); try lia;
    destruct (label_eqb a u), (label_eqb b w), (label_eqb a w),
      (label_eqb b u), (existsb _ es); reflexivity.
Qed.

Lemma double_cover_degree (g : graph) (v : label) (i : Z) :
  i = 0 \/ i = 1 ->
  degree_of (bipartite_double_cover g) (LPair v (LInt i)) = degree_of g v.
Proof.
  intros Hi. unfold degree_of, neighbors.
  change (vertices (bipartite_double_cover g))
    with (flat_map (fun w => map (LPair w) K2_sides) (vertices g)).
  induction (vertices g) as [|w vs IH]; [reflexivity|].
  cbn [flat_map map K2_sides app filter].
  rewrite !has_edge_double_cover.
  destruct Hi as [-> | ->].
  - change (opposite_sides 0 0) with false.
    change (opposite_sides 0 1) with true.
    rewrite andb_false_r, andb_true_r.
    destruct (has_edge g v w); cbn [length map K2_sides] in *; lia.
  - change (opposite_sides 1 0) with true.
    change (opposite_sides 1 1) with false.
    rewrite andb_false_r, andb_true_r.
    destruct (has_edge g v w); cbn [length map K2_sides] in *; lia.
Qed.

Lemma in_double_cover_vertices (g : graph) (x : label) :
  In x (vertices (bipartite_double_cover g))
  <-> exists v, In v (vertices g) /\ (x = LPair v (LInt 0) \/ x = LPair v (LInt 1)).
Proof.
  unfold bipartite_double_cover. cbn [vertices]. rewrite in_flat_map.
  split.
  - intros (v & Hv & [<-|[<-|[]]]); exists v; auto.
  - intros (v & Hv & [-> | ->]); exists v; (split; [assumption|]);
      cbn; auto.
Qed.

Lemma double_cover_nodup (vs : list label) :
  NoDup vs -> NoDup (flat_map (fun v => map (LPair v) K2_sides) vs).
Proof.
  induction 1 as [|v vs Hv Hnd IH]; [constructor|].
  cbn [flat_map map K2_sides app].
  assert (Hout : forall i, ~ In (LPair v (LInt i))
                   (flat_map (fun v => map (LPair v) K2_sides) vs)).
  { intros i Hin. apply in_flat_map in Hin as (w & Hw & Hin).
    cbn in Hin. destruct Hin as [E|[E|[]]]; inversion E; subst;
      contradiction. }
  constructor.
  - intros [E|Hin]; [discriminate|]. now apply (Hout 0).
  - constructor; [apply Hout|assumption].
Qed.

Lemma double_cover_wf (g : graph) : wf g -> wf (bipartite_double_cover g).
Proof.
  intros [Hnd Hedges].
  split; [now apply double_cover_nodup|].
  intros x y Hin. unfold bipartite_double_cover in Hin. cbn [edges] in Hin.
  apply in_flat_map in Hin as ([a b] & Hab & Hin).
  destruct (Hedges a b Hab) as (_ & Ha & Hb). cbn [fst snd] in Hin.
  destruct Hin as [E|[E|[]]]; inversion E; subst;
    (split; [discriminate|]);
    split; apply in_double_cover_vertices; eauto.
Qed.

(** X8: The double cover of a simple graph is a simple graph with twice the
    vertices and twice the edges, it has no edge inside a side, and a
    vertex has in it the degree it has in the graph. *)
Theorem bipartite_double_cover_spec (g : graph) :
  wf g ->
  wf (bipartite_double_cover g)
  /\ order (bipartite_double_cover g) = 2 * order g
  /\ size (bipartite_double_cover g) = 2 * size g
  /\ (forall u w i,
        has_edge (bipartite_double_cover g)
          (LPair u (LInt i)) (LPair w (LInt i)) = false)
  /\ (forall u w,
        has_edge (bipartite_double_cover g)
          (LPair u (LInt 0)) (LPair w (LInt 1)) = has_edge g u w)
  /\ (forall v i, i = 0 \/ i = 1 ->
        degree_of (bipartite_double_cover g) (LPair v (LInt i))
        = degree_of g v).
Proof.
  intros Hwf.
  destruct (bipartite_double_cover_order_size g) as [Ho Hs].
  split; [|split; [exact Ho|split; [exact Hs|split; [|split]]]].
  - now apply double_cover_wf.
  - intros u w i. rewrite has_edge_double_cover. unfold opposite_sides.
    destruct (Z.eqb_spec i 0), (Z.eqb_spec i 1); try lia;
      cbn; now rewrite ?andb_false_r.
  - intros u w. rewrite has_edge_double_cover. apply andb_true_r.
  - intros v i. apply double_cover_degree.
Qed.

Lemma bipartite_double_cover_spec_witness :
  wf CompleteGraph3
  /\ wf (bipartite_double_cover CompleteGraph3)
  /\ order (bipartite_double_cover CompleteGraph3) = 6.
Proof.
  assert (Hwf : wf CompleteGraph3) by (apply wfb_sound; reflexivity).
  split; [exact Hwf|].
  destruct (bipartite_double_cover_spec CompleteGraph3 Hwf) as (H1 & H2 & _).
  split; [exact H1|exact H2].
Defined.

(** ** Neighbourhoods *)



Lemma in_neighbors (g : graph) (v x : label) :
  In x (neighbors g v) <-> In x (vertices g) /\ has_edge g v x = true.
Proof. unfold neighbors. apply filter_In. Qed.


(** ** More on the union of maximum critical independent sets *)

Lemma filter_all (A : Type) (f : A -> bool) (l : list A) :
  (forall x, In x l -> f x = true) -> filter f l = l.
Proof.
  induction l as [|x l IH]; intros H; [reflexivity|].
  cbn [filter]. rewrite (H x (or_introl eq_refl)), IH; [reflexivity|].
  intros y Hy. apply H. now right.
Qed.

Lemma length_filter_without_two (l : list label) (a b : label) :
  NoDup l -> In a l -> In b l -> a <> b ->
  Z.of_nat (length (filter (fun x => negb (mem x [a; b])) l))
  = Z.of_nat (length l) - 2.
Proof.
  intros Hnd Ha Hb Hab.
  rewrite <- wsum_count.
  set (f1 := fun x => negb (label_eqb x a)).
  assert (H1 : wsum f1 (fun _ => 1) l = Z.of_nat (length l) - 1).
  { rewrite (wsum_update (fun _ => true) f1 _ l a Hnd Ha).
    - rewrite wsum_count, filter_all by reflexivity.
      unfold f1. rewrite label_eqb_refl. cbn [negb]. lia.
    - intros u Hu. unfold f1. apply label_eqb_neq in Hu. now rewrite Hu. }
  rewrite (wsum_update f1 _ _ l b Hnd Hb).
  - rewrite H1. unfold f1, mem. cbn [existsb].
    rewrite !label_eqb_refl.
    apply label_eqb_neq in Hab.
    assert (Hba : label_eqb b a = false)
      by (apply label_eqb_neq; apply label_eqb_neq in Hab; congruence).
    rewrite Hba. cbn. lia.
  - intros u Hu. unfold f1, mem. cbn [existsb].
    apply label_eqb_neq in Hu. rewrite Hu. now rewrite !orb_false_r.
Qed.

Lemma degree_0_no_neighbors (g : graph) (v : label) :
  degree_of g v = 0 -> neighbors g v = [].
Proof.
  unfold degree_of. destruct (neighbors g v); [reflexivity|].
  cbn [length]. lia.
Qed.

(** In a simple graph a vertex of degree 0 is at no edge. *)
Lemma degree_0_no_edge (g : graph) (v : label) :
  wf g -> degree_of g v = 0 ->
  forall x y, In (x, y) (edges g) -> x <> v /\ y <> v.
Proof.
  intros [_ Hedges] Hd x y Hin.
  apply degree_0_no_neighbors in Hd.
  destruct (Hedges x y Hin) as (_ & Hx & Hy).
  assert (Hno : forall w, In w (vertices g) -> has_edge g v w = false).
  { intros w Hw. destruct (has_edge g v w) eqn:E; [|reflexivity].
    assert (In w (neighbors g v)) by (apply in_neighbors; auto).
    rewrite Hd in H. destruct H. }
  assert (Hj : forall a b, In (a, b) (edges g) ->
                 existsb (joins a b) (edges g) = true
                 /\ existsb (joins b a) (edges g) = true).
  { intros a b Hab. split; apply existsb_exists; exists (a, b);
      (split; [assumption|]); unfold joins; cbn [fst snd];
      rewrite !label_eqb_refl; cbn; now rewrite ?orb_true_r. }
  destruct (Hj x y Hin) as [Hxy Hyx].
  split; intros ->.
  - specialize (Hno y Hy). unfold has_edge in Hno. congruence.
  - specialize (Hno x Hx). unfold has_edge in Hno. congruence.
Qed.

Lemma critical_test_isolated (g : graph) (v : label) :
  wf g -> In v (vertices g) -> degree_of g v = 0 ->
  critical_test g v = true.
Proof.
  intros Hwf Hv Hd.
  pose proof (double_cover_wf g Hwf) as Hwfb.
  set (b := bipartite_double_cover g).
  assert (Hd0 : degree_of b (LPair v (LInt 0)) = 0)
    by (unfold b; rewrite double_cover_degree; auto).
  assert (Hd1 : degree_of b (LPair v (LInt 1)) = 0)
    by (unfold b; rewrite double_cover_degree; auto).
  assert (Hclosed :
            closed_neighborhood b (VertList [LPair v (LInt 0); LPair v (LInt 1)])
            = [LPair v (LInt 0); LPair v (LInt 1)]).
  { cbn [closed_neighborhood flat_map].
    rewrite (degree_0_no_neighbors b _ Hd0), (degree_0_no_neighbors b _ Hd1).
    cbn [app list_set mem existsb label_eqb]. rewrite label_eqb_refl.
    reflexivity. }
  unfold critical_test. fold b. unfold reduced_cover. rewrite Hclosed.
  assert (Hedges : edges (delete_vertices b
                            [LPair v (LInt 0); LPair v (LInt 1)]) = edges b).
  { unfold delete_vertices. cbn [edges]. apply filter_all.
    intros [x y] Hin. cbn [fst snd].
    destruct (degree_0_no_edge b _ Hwfb Hd0 x y Hin) as [Hx0 Hy0].
    destruct (degree_0_no_edge b _ Hwfb Hd1 x y Hin) as [Hx1 Hy1].
    unfold mem. cbn [existsb].
    apply label_eqb_neq in Hx0, Hy0, Hx1, Hy1.
    now rewrite Hx0, Hy0, Hx1, Hy1. }
  unfold matching_number. rewrite Hedges.
  unfold order, delete_vertices. cbn [vertices].
  rewrite length_filter_without_two.
  - apply Z.eqb_eq. lia.
  - apply Hwfb.
  - apply in_double_cover_vertices. eauto.
  - apply in_double_cover_vertices. eauto.
  - discriminate.
Qed.

(** X10: [union_MCIS] returns vertices of the graph, none twice in a simple
    graph, and among them every vertex of degree 0; so a simple graph
    with such a vertex has a nonempty KE part. *)
Theorem union_MCIS_isolated (g : graph) :
  wf g ->
  incl (union_MCIS g) (vertices g)
  /\ NoDup (union_MCIS g)
  /\ (forall v, In v (vertices g) -> degree_of g v = 0 ->
        In v (union_MCIS g)
        /\ has_nonempty_KE_part g = Ok 1%Q).
Proof.
  intros Hwf. rewrite union_MCIS_filter.
  split; [apply incl_filter|]. split; [apply NoDup_filter, Hwf|].
  intros v Hv Hd.
  assert (Hin : In v (filter (critical_test g) (vertices g))).
  { apply filter_In. split; [assumption|].
    now apply critical_test_isolated. }
  split; [assumption|].
  unfold has_nonempty_KE_part. rewrite union_MCIS_filter.
  destruct (filter (critical_test g) (vertices g)); [destruct Hin|reflexivity].
Qed.

Lemma union_MCIS_isolated_witness :
  wf (edgeless 2)
  /\ In (LInt 0) (vertices (edgeless 2))
  /\ degree_of (edgeless 2) (LInt 0) = 0
  /\ In (LInt 0) (union_MCIS (edgeless 2)).
Proof.
  assert (Hwf : wf (edgeless 2)) by (apply wfb_sound; reflexivity).
  assert (Hv : In (LInt 0) (vertices (edgeless 2))) by (simpl; auto).
  split; [exact Hwf|]. split; [exact Hv|]. split; [reflexivity|].
  destruct (union_MCIS_isolated (edgeless 2) Hwf) as (_ & _ & H).
  exact (proj1 (H (LInt 0) Hv eq_refl)).
Defined.

(** ** The independence number *)

Lemma existsb_false (A : Type) (f : A -> bool) (l : list A) :
  existsb f l = false <-> forall x, In x l -> f x = false.
Proof.
  induction l as [|y l IH]; cbn [existsb].
  - split; [intros _ x []|reflexivity].
  - rewrite orb_false_iff, IH. split.
    + intros [Hy Hl] x [<-|Hx]; auto.
    + intros H. split; [apply H; now left|].
      intros x Hx. apply H. now right.
Qed.

Lemma max_independent_exists (g : graph) (vs chosen : list label) :
  (forall u w, has_edge g u w = has_edge g w u) ->
  exists I, independent_of g vs chosen I
            /\ length I = max_independent g vs chosen.
Proof.
  intros Hsym. revert chosen.
  induction vs as [|v vs IH]; intros chosen.
  - exists []. split; [|reflexivity].
    split; [intros x []|]. split; [constructor|]. split; intros x y [].
  - cbn [max_independent].
    destruct (IH chosen) as (I0 & (Hi0 & Hn0 & Hp0 & Hc0) & Hl0).
    assert (Hskip : exists I, independent_of g (v :: vs) chosen I
                              /\ length I = max_independent g vs chosen).
    { exists I0. split; [|assumption].
      split; [now apply incl_tl|]. repeat split; auto; now apply Hc0. }
    destruct (mem v chosen || existsb (has_edge g v) chosen) eqn:E;
      [exact Hskip|].
    apply orb_false_iff in E as [Ev Ee].
    apply mem_false in Ev. rewrite existsb_false in Ee.
    destruct (Nat.max_spec (max_independent g vs chosen)
                (S (max_independent g vs (v :: chosen)))) as [[_ ->]|[_ ->]];
      [|exact Hskip].
    destruct (IH (v :: chosen)) as (I1 & (Hi1 & Hn1 & Hp1 & Hc1) & Hl1).
    exists (v :: I1). split; [|cbn [length]; congruence].
    split; [|split; [|split]].
    + intros x [<-|Hx]; [now left|right; now apply Hi1].
    + constructor; [|assumption].
      intros Hin. destruct (Hc1 v v Hin (or_introl eq_refl)) as [Hne _].
      now apply Hne.
    + intros x y [<-|Hx] [<-|Hy] Hxy.
      * contradiction.
      * rewrite Hsym. apply (Hc1 y v Hy). now left.
      * apply (Hc1 x v Hx). now left.
      * now apply Hp1.
    + intros x c [<-|Hx] Hc.
      * split; [intros ->; contradiction|now apply Ee].
      * apply (Hc1 x c Hx). now right.
Qed.

Lemma max_independent_upper (g : graph) (vs chosen I : list label) :
  independent_of g vs chosen I ->
  (length I <= max_independent g vs chosen)%nat.
Proof.
  revert chosen I.
  induction vs as [|v vs IH]; intros chosen I (Hi & Hn & Hp & Hc).
  - destruct I as [|x I]; [cbn; lia|]. destruct (Hi x (or_introl eq_refl)).
  - cbn [max_independent].
    destruct (in_dec label_eq_dec v I) as [Hin|Hnin].
    + apply in_split in Hin as (I1 & I2 & ->).
      assert (Hn' : NoDup (v :: I1 ++ I2))
        by (eapply Permutation_NoDup; [|exact Hn];
            symmetry; apply Permutation_middle).
      inversion Hn' as [|? ? Hv Hn'']; subst.
      assert (Hrec : (length (I1 ++ I2)
                      <= max_independent g vs (v :: chosen))%nat).
      { apply IH. split; [|split; [assumption|split]].
        - intros x Hx.
          assert (Hx' : In x (I1 ++ v :: I2))
            by (apply in_app_or in Hx as [Hx|Hx]; apply in_or_app;
                [left|right; right]; assumption).
          destruct (Hi x Hx') as [<-|Hvs]; [contradiction|assumption].
        - intros x y Hx Hy. apply Hp; apply in_app_or in Hx, Hy;
            apply in_or_app; cbn [In]; tauto.
        - intros x c Hx [<-|Hc'].
          + assert (Hxv : x <> v) by (intros ->; contradiction).
            split; [assumption|].
            apply Hp; [| |assumption]; apply in_or_app; cbn [In];
              apply in_app_or in Hx; tauto.
          + apply Hc; [|assumption]. apply in_or_app; cbn [In];
              apply in_app_or in Hx; tauto. }
      assert (Hv_in : In v (I1 ++ v :: I2))
        by (apply in_or_app; right; now left).
      assert (Ev : mem v chosen = false).
      { apply mem_false. intros Hvc.
        destruct (Hc v v Hv_in Hvc) as [Hne _]. now apply Hne. }
      assert (Ee : existsb (has_edge g v) chosen = false).
      { apply existsb_false. intros c Hcc. now apply (Hc v c Hv_in Hcc). }
      rewrite Ev, Ee. cbn [orb].
      rewrite !length_app in *. cbn [length] in *. lia.
    + assert (Hrec : (length I <= max_independent g vs chosen)%nat).
      { apply IH. split; [|repeat split; auto; now apply Hc].
        intros x Hx.
        destruct (Hi x Hx) as [<-|Hvs]; [contradiction|assumption]. }
      destruct (mem v chosen || existsb (has_edge g v) chosen); lia.
Qed.

(** X5: [independence_number] is the size of a largest independent set
    of a simple graph: some set of pairwise non-adjacent vertices has
    that many elements, and none has more. *)
Theorem independence_number_maximum (g : graph) :
  wf g ->
  (exists I, independent_of g (vertices g) [] I
             /\ Z.of_nat (length I) = independence_number g)
  /\ (forall I, independent_of g (vertices g) [] I ->
                Z.of_nat (length I) <= independence_number g).
Proof.
  intros Hwf. pose proof (has_edge_simple g Hwf) as [Hsym _].
  unfold independence_number. split.
  - destruct (max_independent_exists g (vertices g) [] Hsym)
      as (I & HI & Hl).
    exists I. split; [assumption|congruence].
  - intros I HI. apply max_independent_upper in HI. lia.
Qed.

Lemma independence_number_maximum_witness :
  wf PetersenGraph
  /\ exists I, independent_of PetersenGraph (vertices PetersenGraph) [] I
               /\ Z.of_nat (length I) = 4.
Proof.
  assert (Hwf : wf PetersenGraph) by (apply wfb_sound; reflexivity).
  split; [exact Hwf|].
  exact (proj1 (independence_number_maximum PetersenGraph Hwf)).
Defined.

(** ** The matching and minimum-degree bounds are bounds *)

Lemma map_choice_NoDup (f : label * label -> label) (m : list (label * label)) :
  (forall e, f e = fst e \/ f e = snd e) ->
  NoDup (endpoints m) -> NoDup (map f m).
Proof.
  intros Hf. induction m as [|e m IH]; intros Hn; [constructor|].
  cbn in Hn. inversion Hn as [|? ? H1 Hn1]; subst.
  inversion Hn1 as [|? ? H2 Hn2]; subst.
  cbn [map]. constructor; [|now apply IH].
  intros Hin. apply in_map_iff in Hin as (e' & He' & Hin').
  assert (Hfst : In (fst e') (endpoints m))
    by (apply in_flat_map; exists e'; cbn; auto).
  assert (Hsnd : In (snd e') (endpoints m))
    by (apply in_flat_map; exists e'; cbn; auto).
  destruct (Hf e) as [E|E], (Hf e') as [E'|E']; rewrite E, E' in He';
    rewrite <- He' in *; cbn [In] in H1; tauto.
Qed.

Lemma edge_has_edge (g : graph) (x y : label) :
  In (x, y) (edges g) -> has_edge g x y = true.
Proof.
  intros Hin. unfold has_edge. apply existsb_exists. exists (x, y).
  split; [assumption|]. unfold joins. cbn [fst snd].
  now rewrite !label_eqb_refl.
Qed.

(** An independent set and a matching together have at most as many
    elements as the graph has vertices. *)
Lemma independent_plus_matching (g : graph) (I : list label)
    (m : list (label * label)) :
  wf g -> independent_of g (vertices g) [] I -> matching_of (edges g) [] m ->
  (length I + length m <= length (vertices g))%nat.
Proof.
  intros [Hnd Hedges] (Hi & Hn & Hp & _) (Hm & Hnm & _).
  set (f := fun e : label * label => if mem (fst e) I then snd e else fst e).
  assert (Hf : forall e, f e = fst e \/ f e = snd e)
    by (intros e; unfold f; destruct (mem (fst e) I); auto).
  rewrite <- (length_map f m), <- length_app.
  apply NoDup_incl_length.
  - apply NoDup_app; [assumption|now apply map_choice_NoDup|].
    intros x Hx Hfx. apply in_map_iff in Hfx as ([a b] & <- & He).
    pose proof (Hm _ He) as Hin. destruct (Hedges a b Hin) as (Hab & _).
    pose proof (edge_has_edge g a b Hin) as Hadj.
    unfold f in Hx. cbn [fst snd] in Hx.
    destruct (mem a I) eqn:Ea.
    + apply mem_In in Ea. rewrite (Hp a b Ea Hx Hab) in Hadj. discriminate.
    + apply mem_false in Ea. contradiction.
  - intros x Hx. apply in_app_or in Hx as [Hx|Hx]; [now apply Hi|].
    apply in_map_iff in Hx as ([a b] & <- & He).
    destruct (Hedges a b (Hm _ He)) as (_ & Ha & Hb).
    unfold f. cbn [fst snd]. destruct (mem a I); assumption.
Qed.

Lemma length_endpoints (m : list (label * label)) :
  length (endpoints m) = (2 * length m)%nat.
Proof. induction m as [|e m IH]; cbn [endpoints flat_map app length] in *; [reflexivity|]. unfold endpoints in IH. lia. Qed.

Lemma has_edge_edge (g : graph) (x y : label) :
  has_edge g x y = true -> In (x, y) (edges g) \/ In (y, x) (edges g).
Proof.
  unfold has_edge. intros H. apply existsb_exists in H as ([a b] & Hin & Hj).
  unfold joins in Hj. cbn [fst snd] in Hj.
  apply orb_true_iff in Hj as [Hj|Hj]; apply andb_true_iff in Hj as [H1 H2];
    apply label_eqb_eq in H1, H2; subst; auto.
Qed.

(** The vertices that a largest matching leaves out are independent. *)
Lemma unmatched_independent (g : graph) (m : list (label * label)) :
  wf g -> matching_of (edges g) [] m ->
  length m = max_matching (edges g) [] ->
  independent_of g (vertices g) []
    (filter (fun v => negb (mem v (endpoints m))) (vertices g)).
Proof.
  intros Hwf (Hm & Hnm & _) Hmax. pose proof Hwf as [Hnd Hedges].
  split; [apply incl_filter|]. split; [now apply NoDup_filter|].
  split; [|intros x c _ []].
  intros x y Hx Hy Hxy.
  apply filter_In in Hx as [_ Hx]. apply filter_In in Hy as [_ Hy].
  apply negb_true_iff, mem_false in Hx. apply negb_true_iff, mem_false in Hy.
  destruct (has_edge g x y) eqn:E; [exfalso|reflexivity].
  assert (Hbig : forall a b, In (a, b) (edges g) ->
                   ~ In a (endpoints m) -> ~ In b (endpoints m) -> a <> b ->
                   False).
  { intros a b Hin Ha Hb Hab.
    assert (Hm' : matching_of (edges g) [] ((a, b) :: m)).
    { split; [intros e [<-|He]; auto|]. split; [|intros z _ []].
      cbn. constructor; [intros [->|H]; auto|].
      constructor; assumption. }
    apply max_matching_upper in Hm'. cbn [length] in Hm'. lia. }
  destruct (has_edge_edge g x y E) as [Hin|Hin].
  - now apply (Hbig x y).
  - apply (Hbig y x); auto.
Qed.

Lemma length_filter_not_mem (vs l : list label) :
  NoDup vs ->
  (length vs <= length (filter (fun v => negb (mem v l)) vs) + length l)%nat.
Proof.
  intros Hnd.
  pose proof (filter_length (fun v => mem v l) vs) as Hsplit.
  assert (Hle : (length (filter (fun v => mem v l) vs) <= length l)%nat).
  { apply NoDup_incl_length; [now apply NoDup_filter|].
    intros x Hx. apply filter_In in Hx as [_ Hx]. now apply mem_In. }
  lia.
Qed.

(** X6: The matching bounds enclose the independence number of a simple
    graph: [n - 2 mu <= alpha <= n - mu]. *)
Theorem matching_bounds_sound (g : graph) :
  wf g ->
  matching_lower_bound g
  = Ok (inject_Z (order g - 2 * matching_number g))
  /\ matching_upper_bound g = Ok (inject_Z (order g - matching_number g))
  /\ order g - 2 * matching_number g <= independence_number g
  /\ independence_number g <= order g - matching_number g.
Proof.
  intros Hwf. split; [reflexivity|]. split; [reflexivity|].
  pose proof (has_edge_simple g Hwf) as [Hsym _].
  destruct (max_matching_exists (edges g) []) as (m & Hm & Hlm).
  destruct (max_independent_exists g (vertices g) [] Hsym) as (I & HI & HlI).
  unfold independence_number, matching_number, order. split.
  - pose proof (unmatched_independent g m Hwf Hm Hlm) as HU.
    apply max_independent_upper in HU.
    pose proof (length_filter_not_mem (vertices g) (endpoints m) (proj1 Hwf)).
    rewrite length_endpoints in H. lia.
  - pose proof (independent_plus_matching g I m Hwf HI Hm). lia.
Qed.

Lemma matching_bounds_sound_witness :
  wf PetersenGraph
  /\ order PetersenGraph - 2 * matching_number PetersenGraph
     <= independence_number PetersenGraph
  /\ independence_number PetersenGraph
     <= order PetersenGraph - matching_number PetersenGraph.
Proof.
  assert (Hwf : wf PetersenGraph) by (apply wfb_sound; reflexivity).
  split; [exact Hwf|].
  destruct (matching_bounds_sound PetersenGraph Hwf) as (_ & _ & H1 & H2).
  split; assumption.
Defined.

(** X7: [min_degree_bound] raises [ValueError] on the graph without vertices
    and is otherwise [n - delta], which the independence number of a
    simple graph does not exceed. *)
Theorem min_degree_bound_sound (g : graph) :
  (vertices g = [] -> min_degree_bound g = Raise ValueError)
  /\ (wf g -> vertices g <> [] ->
      exists delta, min_degree g = Ok delta
        /\ min_degree_bound g = Ok (inject_Z (order g - delta))
        /\ independence_number g <= order g - delta).
Proof.
  split.
  - unfold min_degree_bound, min_degree, degree. intros ->. reflexivity.
  - intros Hwf Hne.
    pose proof (has_edge_simple g Hwf) as [Hsym Hirr].
    destruct (min_degree g) as [delta|e] eqn:Emin.
    2:{ unfold min_degree, degree in Emin.
        destruct (vertices g); [contradiction|discriminate]. }
    exists delta. split; [reflexivity|].
    split; [unfold min_degree_bound; now rewrite Emin|].
    unfold min_degree in Emin.
    assert (Hmin : forall v, In v (vertices g) -> delta <= degree_of g v).
    { intros v Hv. unfold py_min in Emin.
      destruct (degree g) as [|x l] eqn:Ed; [discriminate|].
      injection Emin as <-.
      assert (Hin : In (degree_of g v) (x :: l))
        by (rewrite <- Ed; unfold degree; now apply in_map).
      clear Ed. revert x Hin.
      induction l as [|z l IH]; intros x Hin; cbn [fold_left].
      - destruct Hin as [->|[]]. lia.
      - assert (Hx : fold_left Z.min l (Z.min x z) <= Z.min x z).
        { clear. generalize (Z.min x z). induction l as [|a l IH];
            intros y; cbn [fold_left]; [lia|].
          specialize (IH (Z.min y a)). lia. }
        destruct Hin as [->|[->|Hin]]; [lia|lia|].
        apply IH. now right. }
    destruct (max_independent_exists g (vertices g) [] Hsym)
      as (I & (Hi & Hn & Hp & _) & HlI).
    unfold independence_number. rewrite <- HlI. unfold order.
    destruct I as [|v I'] eqn:EI.
    + cbn [length].
      destruct (vertices g) as [|v vs] eqn:Ev; [contradiction|].
      specialize (Hmin v (or_introl eq_refl)).
      assert (degree_of g v <= Z.of_nat (length (v :: vs))).
      { unfold degree_of, neighbors. rewrite Ev.
        pose proof (filter_length_le (has_edge g v) (v :: vs)). lia. }
      lia.
    + rewrite <- EI in *.
      assert (Hv : In v I) by (rewrite EI; now left).
      specialize (Hmin v (Hi v Hv)).
      assert (Hlen : (length (I ++ neighbors g v)
                      <= length (vertices g))%nat).
      { apply NoDup_incl_length.
        - apply NoDup_app; [assumption|apply NoDup_filter, Hwf|].
          intros x Hx Hnx. apply in_neighbors in Hnx as [_ Hadj].
          destruct (label_eq_dec v x) as [->|Hvx];
            [rewrite Hirr in Hadj; discriminate|].
          rewrite (Hp v x Hv Hx Hvx) in Hadj. discriminate.
        - intros x Hx. apply in_app_or in Hx as [Hx|Hx]; [now apply Hi|].
          now apply in_neighbors in Hx. }
      rewrite length_app in Hlen. unfold degree_of in Hmin. lia.
Qed.

Lemma min_degree_bound_sound_witness :
  wf CycleGraph5 /\ vertices CycleGraph5 <> []
  /\ exists delta, min_degree CycleGraph5 = Ok delta
       /\ min_degree_bound CycleGraph5
          = Ok (inject_Z (order CycleGraph5 - delta))
       /\ independence_number CycleGraph5 <= order CycleGraph5 - delta.
Proof.
  assert (Hwf : wf CycleGraph5) by (apply wfb_sound; reflexivity).
  assert (Hne : vertices CycleGraph5 <> []) by discriminate.
  split; [exact Hwf|]. split; [exact Hne|].
  exact (proj2 (min_degree_bound_sound CycleGraph5) Hwf Hne).
Defined.

(** ** The range of [residue] *)

Lemma hh_reduces_length (seq final : list Z) :
  hh_reduces seq final ->
  (1 <= length final <= length seq)%nat.
Proof.
  induction 1 as [rest|d rest final Hd Hall Hlen Hred IH].
  - cbn [length]. lia.
  - rewrite sort_reverse_length, length_app, length_map, <- length_app,
      firstn_skipn in IH. cbn [length]. lia.
Qed.

Lemma residue_loop_zeros (seq : list Z) :
  seq <> [] -> Forall (fun k => k = 0) seq ->
  residue_loop seq = Ok (Z.of_nat (length seq)).
Proof.
  intros Hne Hz. destruct seq as [|d seq']; [contradiction|].
  inversion Hz; subst. now simp residue_loop.
Qed.

Lemma sort_reverse_zeros (l : list Z) :
  Forall (fun k => k = 0) l -> Forall (fun k => k = 0) (sort_reverse l).
Proof.
  intros H. eapply Permutation_Forall; [apply sort_reverse_perm|exact H].
Qed.

(** X12: [residue] raises [IndexError] on the graph without vertices, an
    exception that the aggregators do not handle; on a simple graph with
    [n >= 1] vertices it returns an integer from 1 to [n], and [n] itself
    when the graph has no edge. *)
Theorem residue_range (g : graph) :
  (vertices g = [] ->
   residue g = Raise IndexError
   /\ forall cls, lookup "func" (attributes cls) = Some residue ->
        lower_bounds cls <> [] ->
        best_lower_bound cls g = Raise IndexError)
  /\ (wf g -> vertices g <> [] ->
      exists r, residue g = Ok (inject_Z r) /\ 1 <= r <= order g)
  /\ (vertices g <> [] -> Forall (fun d => d = 0) (degree g) ->
      residue g = Ok (inject_Z (order g))).
Proof.
  split; [|split].
  - intros Hv.
    assert (Hr : residue g = Raise IndexError).
    { unfold residue, residue_Z, degree_sequence, degree. rewrite Hv.
      reflexivity. }
    split; [exact Hr|].
    intros cls Hl Hne. apply lower_loop_raise; [|reflexivity|assumption].
    rewrite (call_attr_bound _ _ _ _ Hl). exact Hr.
  - intros Hwf Hne.
    assert (Hlen : length (degree_sequence g) = length (vertices g)).
    { unfold degree_sequence, degree.
      now rewrite sort_reverse_length, length_map. }
    destruct (residue_loop_graphic (degree_sequence g))
      as (final & Hred & _ & Hres).
    + now apply degree_sequence_graphic.
    + apply sort_reverse_descending.
    + intros E. rewrite E in Hlen. destruct (vertices g);
        [contradiction|discriminate].
    + exists (Z.of_nat (length final)). split.
      * unfold residue, residue_Z. rewrite Hres. reflexivity.
      * apply hh_reduces_length in Hred. unfold order. lia.
  - intros Hne Hz.
    unfold residue, residue_Z, degree_sequence.
    rewrite residue_loop_zeros.
    + rewrite sort_reverse_length. unfold degree, order.
      rewrite length_map. reflexivity.
    + intros E. apply (f_equal (@length Z)) in E.
      rewrite sort_reverse_length in E. unfold degree in E.
      rewrite length_map in E. destruct (vertices g);
        [contradiction|discriminate].
    + now apply sort_reverse_zeros.
Qed.

Lemma residue_range_witness :
  wf PetersenGraph /\ vertices PetersenGraph <> []
  /\ exists r, residue PetersenGraph = Ok (inject_Z r)
               /\ 1 <= r <= order PetersenGraph.
Proof.
  assert (Hwf : wf PetersenGraph) by (apply wfb_sound; reflexivity).
  assert (Hne : vertices PetersenGraph <> []) by discriminate.
  split; [exact Hwf|]. split; [exact Hne|].
  destruct (residue_range PetersenGraph) as (_ & H & _).
  exact (H Hwf Hne).
Defined.

(** ** The annihilation number is more than half the order *)

Lemma sum_le_bound (l : list Z) (x : Z) :
  Forall (fun d => d <= x) l -> sum l <= Z.of_nat (length l) * x.
Proof. induction 1; cbn [sum fold_right length] in *; unfold sum in *; lia. Qed.

Lemma sum_ge_bound (l : list Z) (x : Z) :
  Forall (fun d => x <= d) l -> Z.of_nat (length l) * x <= sum l.
Proof. induction 1; cbn [sum fold_right length] in *; unfold sum in *; lia. Qed.

Lemma ascending_app_le (l1 l2 : list Z) :
  StronglySorted Z.le (l1 ++ l2) ->
  forall a b, In a l1 -> In b l2 -> a <= b.
Proof.
  induction l1 as [|x l1 IH]; intros Hs a b Ha Hb; [destruct Ha|].
  cbn [app] in Hs. inversion Hs as [|? ? Hs' Hall]; subst.
  destruct Ha as [<-|Ha].
  - rewrite Forall_forall in Hall. apply Hall. apply in_or_app. now right.
  - now apply IH.
Qed.

(** In an ascending list of numbers that are not negative, the first [k]
    sum to at most the rest as long as they are at most half of all. *)
Lemma ascending_prefix_le_rest (l : list Z) (k : nat) :
  StronglySorted Z.le l -> Forall (fun d => 0 <= d) l ->
  (2 * k <= length l)%nat ->
  sum (firstn k l) <= sum (skipn k l).
Proof.
  intros Hs Hpos Hk.
  assert (Hpos1 : Forall (fun d => 0 <= d) (skipn k l)).
  { rewrite <- (firstn_skipn k l) in Hpos.
    now apply Forall_app in Hpos as [_ H]. }
  destruct (firstn k l) as [|x0 l0] eqn:E1.
  { cbn. now apply sum_nonneg. }
  assert (Hmax : exists x, In x (firstn k l)
                           /\ Forall (fun d => d <= x) (firstn k l)).
  { rewrite E1. clear. revert x0. induction l0 as [|y l0 IH]; intros x0.
    - exists x0. split; [now left|]. repeat constructor. lia.
    - destruct (IH y) as (x & Hin & Hall).
      destruct (Z.le_gt_cases x0 x) as [Hle|Hgt].
      + exists x. split; [now right|]. constructor; assumption.
      + exists x0. split; [now left|]. constructor; [lia|].
        eapply Forall_impl; [|exact Hall]. intros; cbn in *; lia. }
  rewrite <- E1. destruct Hmax as (x & Hin & Hall).
  assert (Hx : 0 <= x).
  { rewrite Forall_forall in Hpos. apply Hpos.
    rewrite <- (firstn_skipn k l). apply in_or_app. now left. }
  assert (Hrest : Forall (fun d => x <= d) (skipn k l)).
  { apply Forall_forall. intros b Hb.
    apply (ascending_app_le (firstn k l) (skipn k l)); auto.
    now rewrite firstn_skipn. }
  pose proof (sum_le_bound _ _ Hall) as H1.
  pose proof (sum_ge_bound _ _ Hrest) as H2.
  rewrite length_firstn in H1. rewrite length_skipn in H2.
  nia.
Qed.

Lemma sum_zeros (l : list Z) : Forall (fun d => d = 0) l -> sum l = 0.
Proof. induction 1; cbn [sum fold_right] in *; unfold sum in *; lia. Qed.

Lemma sum_pos (l : list Z) :
  Forall (fun d => 0 <= d) l -> ~ Forall (fun d => d = 0) l -> 0 < sum l.
Proof.
  induction 1 as [|x l Hx Hl IH]; intros Hnz.
  - exfalso. apply Hnz. constructor.
  - cbn [sum fold_right]. fold (sum l).
    pose proof (sum_nonneg l Hl).
    destruct (Z.eq_dec x 0) as [->|Hne]; [|lia].
    assert (0 < sum l); [|lia].
    apply IH. intros Hz. apply Hnz. now constructor.
Qed.

(** X16: [annihilation_number] returns more than half the order and at most
    the order plus one, which it reaches exactly on the graphs without
    edges (all degrees 0): there it exceeds the default upper bound. *)
Theorem annihilation_number_range (g : graph) :
  order g < 2 * annihilation_number_Z g
  /\ annihilation_number_Z g <= order g + 1
  /\ (Forall (fun d => d = 0) (degree g) ->
      annihilation_number_Z g = order g + 1)
  /\ (~ Forall (fun d => d = 0) (degree g) ->
      annihilation_number_Z g <= order g).
Proof.
  set (seq := sorted (degree g)). set (n := order g).
  destruct (annihilation_loop_spec seq n 1) as (Hle & Hbelow & Hstop).
  assert (Ea : annihilation_number_Z g = annihilation_loop seq n 1)
    by reflexivity.
  rewrite <- Ea in *. set (a := annihilation_number_Z g) in *.
  clearbody a. clear Ea.
  assert (Hn : 0 <= n) by (unfold n, order; lia).
  assert (Hlen : Z.of_nat (length seq) = n).
  { unfold seq, n, order, degree.
    now rewrite <- (Permutation_length (sorted_perm _)), length_map. }
  assert (Hpos : Forall (fun d => 0 <= d) seq) by apply sorted_degree_nonneg.
  assert (Hs : StronglySorted Z.le seq) by apply sorted_ascending.
  assert (Hbound : a <= n + 1).
  { destruct (Z.eq_dec a 1) as [->|Hne]; [lia|].
    specialize (Hbelow (a - 1) ltac:(lia)).
    unfold annihilation_cond in Hbelow.
    apply andb_prop in Hbelow as [H _]. apply Z.leb_le in H. lia. }
  assert (Hzero_iff : Forall (fun d => d = 0) (degree g)
                      <-> Forall (fun d => d = 0) seq).
  { split; intros H; eapply Permutation_Forall; try exact H;
      [apply sorted_perm|symmetry; apply sorted_perm]. }
  split; [|split; [exact Hbound|split]].
  - destruct (Z.le_gt_cases a n) as [Han|Han]; [|lia].
    unfold annihilation_cond in Hstop.
    apply andb_false_iff in Hstop as [H|H]; apply Z.leb_gt in H; [lia|].
    destruct (Z.le_gt_cases (2 * a) n) as [H2|H2]; [|lia].
    pose proof (ascending_prefix_le_rest seq (Z.to_nat a) Hs Hpos
                  ltac:(lia)). lia.
  - intros Hz. apply Hzero_iff in Hz.
    destruct (Z.le_gt_cases a n) as [Han|Han]; [|lia].
    unfold annihilation_cond in Hstop.
    apply andb_false_iff in Hstop as [H|H]; apply Z.leb_gt in H; [lia|].
    rewrite <- (firstn_skipn (Z.to_nat a) seq) in Hz.
    apply Forall_app in Hz as [Hz1 Hz2].
    rewrite (sum_zeros _ Hz1), (sum_zeros _ Hz2) in H. lia.
  - intros Hnz. rewrite Hzero_iff in Hnz.
    destruct (Z.le_gt_cases a n) as [Han|Han]; [assumption|].
    assert (a = n + 1) by lia. subst a.
    destruct (Z.eq_dec n 0) as [Hn0|Hn0].
    + exfalso. apply Hnz. destruct seq; [constructor|cbn in Hlen; lia].
    + specialize (Hbelow n ltac:(lia)). unfold annihilation_cond in Hbelow.
      apply andb_prop in Hbelow as [_ H]. apply Z.leb_le in H.
      rewrite firstn_all2, skipn_all2 in H by lia.
      pose proof (sum_pos seq Hpos Hnz). cbn in H. lia.
Qed.

Lemma annihilation_number_range_witness :
  Forall (fun d => d = 0) (degree (edgeless 2))
  /\ annihilation_number_Z (edgeless 2) = order (edgeless 2) + 1.
Proof.
  assert (Hz : Forall (fun d => d = 0) (degree (edgeless 2)))
    by (repeat constructor).
  split; [exact Hz|].
  destruct (annihilation_number_range (edgeless 2)) as (_ & _ & H & _).
  exact (H Hz).
Defined.

(** ** Kwok and Borg tighten the default bound *)

Lemma positive_degree_edge (g : graph) (Delta : Z) :
  max_degree g = Ok Delta -> 0 < Delta -> 1 <= size g /\ 1 <= order g.
Proof.
  intros HD Hpos. unfold max_degree in HD.
  apply py_max_spec in HD as [Hin _].
  unfold degree in Hin. apply in_map_iff in Hin as (v & Hd & Hv).
  unfold degree_of in Hd.
  destruct (neighbors g v) as [|w ws] eqn:En; [cbn in Hd; lia|].
  assert (Hw : In w (neighbors g v)) by (rewrite En; now left).
  apply in_neighbors in Hw as [_ Hadj].
  unfold size, order. split.
  - destruct (has_edge_edge g v w Hadj) as [H|H];
      destruct (edges g); try destruct H; cbn [length]; lia.
  - destruct (vertices g); [destruct Hv|cbn [length]; lia].
Qed.

(** X15: Whenever [kwok] and [borg] are defined (maximum degree [Delta > 0])
    what they return is below the order: [kwok] is less than [n], and
    [borg] is an integer from 1 to [n - 1] on a simple graph. *)
Theorem kwok_borg_below_order (g : graph) (Delta : Z) :
  max_degree g = Ok Delta -> 0 < Delta ->
  (exists q, kwok g = Ok q /\ (q < inject_Z (order g))%Q)
  /\ (exists b, borg g = Ok (inject_Z b) /\ 1 <= b <= order g
                /\ (wf g -> b <= order g - 1)).
Proof.
  intros HD Hpos.
  assert (HD0 : (Delta =? 0) = false) by (apply Z.eqb_neq; lia).
  destruct (positive_degree_edge g Delta HD Hpos) as [He Hn].
  split.
  - eexists. split.
    + unfold kwok. rewrite HD. cbn [bind]. rewrite HD0. reflexivity.
    + rewrite Qred_correct.
      rewrite (Qdiv_inject_Z (size g) Delta Hpos).
      unfold Qlt, Qminus, Qplus, Qopp, inject_Z. cbn [Qnum Qden].
      rewrite Z2Pos.id by lia. nia.
  - exists (order g - Qceiling (inject_Z (order g - 1) / inject_Z Delta)).
    split; [unfold borg; rewrite HD; cbn [bind]; now rewrite HD0|].
    pose proof (Qceiling_div (order g - 1) Delta Hpos) as Hc.
    cbv zeta in Hc.
    set (c := Qceiling (inject_Z (order g - 1) / inject_Z Delta)) in *.
    split; [nia|].
    intros Hwf.
    assert (Hn2 : 2 <= order g).
    { unfold max_degree in HD. apply py_max_spec in HD as [Hin _].
      unfold degree in Hin. apply in_map_iff in Hin as (v & Hd & Hv).
      pose proof (degree_of_lt_order g v Hwf Hv). lia. }
    nia.
Qed.

Lemma kwok_borg_below_order_witness :
  max_degree PathGraph3 = Ok 2 /\ 0 < 2
  /\ exists q, kwok PathGraph3 = Ok q /\ (q < inject_Z (order PathGraph3))%Q.
Proof.
  split; [reflexivity|]. split; [lia|].
  exact (proj1 (kwok_borg_below_order PathGraph3 2 eq_refl ltac:(lia))).
Defined.

(** ** Caro-Wei *)

Lemma fold_left_Qplus_bounds (l : list Q) (a lo hi : Q) :
  Forall (fun t => lo <= t /\ t <= hi)%Q l ->
  (a + inject_Z (Z.of_nat (length l)) * lo <= fold_left Qplus l a
   /\ fold_left Qplus l a <= a + inject_Z (Z.of_nat (length l)) * hi)%Q.
Proof.
  intros H. revert a. induction H as [|t l [Hlo Hhi] Hl IH]; intros a.
  - cbn [fold_left length Z.of_nat]. change (inject_Z 0) with 0%Q.
    split; lra.
  - cbn [fold_left length]. destruct (IH (a + t)%Q) as [H1 H2].
    rewrite Nat2Z.inj_succ. unfold Z.succ. rewrite inject_Z_plus.
    change (inject_Z 1) with 1%Q.
    set (L := inject_Z (Z.of_nat (length l))) in *.
    split.
    + eapply Qle_trans; [|exact H1]. lra.
    + eapply Qle_trans; [exact H2|]. lra.
Qed.

Lemma Qinv_term_bounds (d D : Z) :
  0 <= d <= D ->
  (1 / (1 + inject_Z D) <= 1 / (1 + inject_Z d)
   /\ 1 / (1 + inject_Z d) <= 1)%Q.
Proof.
  intros Hd.
  assert (E : forall k, 0 <= k ->
                (1 / (1 + inject_Z k) == 1 # Z.to_pos (1 + k))%Q).
  { intros k Hk. change 1%Q with (inject_Z 1) at 2.
    rewrite <- inject_Z_plus. change 1%Q with (inject_Z 1).
    apply Qdiv_inject_Z. lia. }
  rewrite !E by lia. unfold Qle. cbn [Qnum Qden].
  rewrite !Z2Pos.id by lia. lia.
Qed.

(** X13: [caro_wei] returns a number between [n / (1 + Delta)] and [n]; it
    is 0 on the graph without vertices and [n] on a graph without
    edges. *)
Theorem caro_wei_range (g : graph) :
  exists q, caro_wei g = Ok q
    /\ (0 <= q /\ q <= inject_Z (order g))%Q
    /\ (forall Delta, max_degree g = Ok Delta ->
          (inject_Z (order g) / (1 + inject_Z Delta) <= q)%Q)
    /\ (Forall (fun d => d = 0) (degree g) -> (q == inject_Z (order g))%Q).
Proof.
  eexists. split; [reflexivity|].
  set (terms := map (fun d => 1 / (1 + inject_Z d))%Q (degree g)).
  assert (Hlen : Z.of_nat (length terms) = order g).
  { unfold terms, degree, order. now rewrite !length_map. }
  assert (Hterm : forall D, (forall d, In d (degree g) -> d <= D) ->
            Forall (fun t => 1 / (1 + inject_Z D) <= t /\ t <= 1)%Q terms).
  { intros D HD. unfold terms. apply Forall_forall. intros t Ht.
    apply in_map_iff in Ht as (d & <- & Hd).
    apply Qinv_term_bounds. split; [eapply degree_nonneg; eauto|auto]. }
  split; [|split].
  - assert (H01 : Forall (fun t => 0 <= t /\ t <= 1)%Q terms).
    { unfold terms. apply Forall_forall. intros t Ht.
      apply in_map_iff in Ht as (d & <- & Hd).
      pose proof (degree_nonneg g d Hd) as Hd0.
      destruct (Qinv_term_bounds d d ltac:(lia)) as [_ H1].
      split; [|exact H1].
      assert (Hq : (0 <= inject_Z d)%Q)
        by (change 0%Q with (inject_Z 0); rewrite <- Zle_Qle; exact Hd0).
      apply Qle_shift_div_l; lra. }
    destruct (fold_left_Qplus_bounds terms 0 0 1 H01) as [H1 H2].
    rewrite Hlen in H1, H2. rewrite Qred_correct. split; lra.
  - intros Delta HD. unfold max_degree in HD.
    apply py_max_spec in HD as [_ Hmax].
    destruct (fold_left_Qplus_bounds terms 0 _ _ (Hterm Delta Hmax))
      as [H1 _].
    rewrite Hlen in H1. rewrite Qred_correct.
    eapply Qle_trans; [|exact H1]. unfold Qdiv. lra.
  - intros Hz.
    assert (H11 : Forall (fun t => 1 <= t /\ t <= 1)%Q terms).
    { unfold terms. apply Forall_forall. intros t Ht.
      apply in_map_iff in Ht as (d & <- & Hd).
      rewrite Forall_forall in Hz. rewrite (Hz d Hd).
      split; apply Qle_lteq; right; reflexivity. }
    destruct (fold_left_Qplus_bounds terms 0 1 1 H11) as [H1 H2].
    rewrite Hlen in H1, H2. rewrite Qred_correct. apply Qle_antisym; lra.
Qed.

Lemma caro_wei_range_witness :
  max_degree PathGraph3 = Ok 2
  /\ exists q, caro_wei PathGraph3 = Ok q
       /\ (inject_Z (order PathGraph3) / (1 + inject_Z 2) <= q)%Q.
Proof.
  split; [reflexivity|].
  destruct (caro_wei_range PathGraph3) as (q & Hq & _ & Hlow & _).
  exists q. split; [exact Hq|]. apply Hlow. reflexivity.
Defined.

(** ** Hansen-Zheng lower bound *)

(** X14: [hansen_zheng_lower_bound] raises the division error on the graph
    without vertices, an exception that the aggregators do not handle; on
    every other graph it returns an integer from 1 to [n]. *)
Theorem hansen_zheng_lower_bound_range (g : graph) :
  (vertices g = [] ->
   hansen_zheng_lower_bound g = Raise ArithmeticError
   /\ forall cls, lookup "func" (attributes cls)
                  = Some hansen_zheng_lower_bound ->
        lower_bounds cls <> [] ->
        best_lower_bound cls g = Raise ArithmeticError)
  /\ (vertices g <> [] ->
      exists r, hansen_zheng_lower_bound g = Ok (inject_Z r)
                /\ 1 <= r <= order g).
Proof.
  split.
  - intros Hv.
    assert (Hr : hansen_zheng_lower_bound g = Raise ArithmeticError)
      by (unfold hansen_zheng_lower_bound, order; now rewrite Hv).
    split; [exact Hr|]. intros cls Hl Hne.
    apply lower_loop_raise; [|reflexivity|assumption].
    rewrite (call_attr_bound _ _ _ _ Hl). exact Hr.
  - intros Hne.
    assert (Hn : 0 < order g)
      by (unfold order; destruct (vertices g); [contradiction|cbn; lia]).
    assert (He : 0 <= size g) by (unfold size; lia).
    unfold hansen_zheng_lower_bound.
    destruct (Z.eqb_spec (order g) 0) as [E|_]; [lia|].
    set (n := order g) in *. set (e := size g) in *.
    set (x := (2 * inject_Z e / inject_Z n)%Q).
    set (D := (1 + inject_Z (Qfloor x))%Q).
    set (y := (inject_Z n - 2 * inject_Z e / D)%Q).
    exists (Qceiling y). split; [reflexivity|].
    assert (Hnq : (0 < inject_Z n)%Q)
      by (change 0%Q with (inject_Z 0); now rewrite <- Zlt_Qlt).
    assert (Heq : (0 <= inject_Z e)%Q)
      by (change 0%Q with (inject_Z 0); now rewrite <- Zle_Qle).
    assert (Hx0 : (0 <= x)%Q).
    { unfold x. apply Qle_shift_div_l; [assumption|lra]. }
    assert (HxD : (x < D)%Q).
    { unfold D. pose proof (Qlt_floor x) as H.
      rewrite inject_Z_plus in H. change (inject_Z 1) with 1%Q in H. lra. }
    assert (HD : (0 < D)%Q) by lra.
    assert (H2e : (2 * inject_Z e < D * inject_Z n)%Q).
    { assert (Hmul : (2 * inject_Z e / inject_Z n * inject_Z n
                      == 2 * inject_Z e)%Q)
        by (field; lra).
      pose proof (proj2 (Qmult_lt_r x D (inject_Z n) Hnq) HxD) as H.
      unfold x in H. rewrite Hmul in H. exact H. }
    assert (Hy0 : (0 < y)%Q).
    { unfold y.
      assert ((2 * inject_Z e / D < inject_Z n)%Q).
      { apply Qlt_shift_div_r; [assumption|lra]. }
      lra. }
    assert (Hyn : (y <= inject_Z n)%Q).
    { unfold y.
      assert ((0 <= 2 * inject_Z e / D)%Q)
        by (apply Qle_shift_div_l; [assumption|lra]).
      lra. }
    split.
    + pose proof (Qle_ceiling y) as Hc.
      assert ((0 < inject_Z (Qceiling y))%Q) by lra.
      change 0%Q with (inject_Z 0) in H. rewrite <- Zlt_Qlt in H. lia.
    + rewrite <- (Qceiling_Z n). now apply Qceiling_resp_le.
Qed.

Lemma hansen_zheng_lower_bound_range_witness :
  vertices PetersenGraph <> []
  /\ exists r, hansen_zheng_lower_bound PetersenGraph = Ok (inject_Z r)
               /\ 1 <= r <= order PetersenGraph.
Proof.
  assert (Hne : vertices PetersenGraph <> []) by discriminate.
  split; [exact Hne|].
  exact (proj2 (hansen_zheng_lower_bound_range PetersenGraph) Hne).
Defined.

(** ** A vertex adjacent to all others *)

Lemma filter_full (A : Type) (f : A -> bool) (l : list A) :
  length (filter f l) = length l -> forall x, In x l -> f x = true.
Proof.
  induction l as [|y l IH]; intros H x Hx; [destruct Hx|].
  cbn [filter] in H. destruct (f y) eqn:E.
  - cbn [length] in H. destruct Hx as [<-|Hx]; [assumption|].
    apply IH; [lia|assumption].
  - pose proof (filter_length_le f l). cbn [length] in H. lia.
Qed.

Lemma filter_all_length (A : Type) (f : A -> bool) (l : list A) :
  (forall x, In x l -> f x = true) -> length (filter f l) = length l.
Proof.
  induction l as [|y l IH]; intros H; [reflexivity|].
  cbn [filter]. rewrite (H y (or_introl eq_refl)). cbn [length].
  rewrite IH; [reflexivity|]. intros x Hx. apply H. now right.
Qed.

Lemma degree_of_without (g : graph) (v : label) :
  wf g -> In v (vertices g) ->
  degree_of g v
  = Z.of_nat (length (filter (has_edge g v) (without v (vertices g))))
  /\ Z.of_nat (length (without v (vertices g))) = order g - 1.
Proof.
  intros Hwf Hv. pose proof (has_edge_simple g Hwf) as [_ Hirr].
  destruct Hwf as [Hnd _]. split.
  - rewrite degree_of_deg.
    pose proof (deg_without (vertices g) (has_edge g) v v Hnd Hv) as H.
    rewrite Hirr in H. cbn [Z.b2z] in H. unfold deg in H at 1.
    rewrite wsum_count in H. lia.
  - pose proof (Permutation_length (without_perm (vertices g) v Hnd Hv)) as Hl.
    cbn [length] in Hl. unfold order. lia.
Qed.

Lemma in_without (v x : label) (vs : list label) :
  In x (without v vs) <-> In x vs /\ x <> v.
Proof.
  unfold without. rewrite filter_In, negb_true_iff, label_eqb_neq.
  reflexivity.
Qed.

(** X11: [has_max_degree_order_minus_one] raises [ValueError] on the graph
    without vertices; on a simple graph with vertices it says whether
    some vertex is adjacent to all the others. *)
Theorem has_max_degree_order_minus_one_spec (g : graph) :
  (vertices g = [] -> has_max_degree_order_minus_one g = Raise ValueError)
  /\ (wf g -> vertices g <> [] ->
      exists b, has_max_degree_order_minus_one g = Ok (py_bool b)
        /\ (b = true <->
            exists v, In v (vertices g)
              /\ forall w, In w (vertices g) -> w <> v ->
                   has_edge g v w = true)).
Proof.
  split.
  - unfold has_max_degree_order_minus_one, max_degree, degree.
    intros ->. reflexivity.
  - intros Hwf Hne.
    destruct (max_degree g) as [Delta|e] eqn:Emax.
    2:{ unfold max_degree, degree in Emax.
        destruct (vertices g); [contradiction|discriminate]. }
    exists (Delta =? order g - 1).
    split; [unfold has_max_degree_order_minus_one; now rewrite Emax|].
    unfold max_degree in Emax. apply py_max_spec in Emax as [Hin Hmax].
    rewrite Z.eqb_eq. split.
    + intros HD. unfold degree in Hin.
      apply in_map_iff in Hin as (v & Hd & Hv).
      exists v. split; [assumption|]. intros w Hw Hwv.
      destruct (degree_of_without g v Hwf Hv) as [H1 H2].
      apply (filter_full _ (has_edge g v) (without v (vertices g))).
      * lia.
      * now apply in_without.
    + intros (v & Hv & Hall).
      destruct (degree_of_without g v Hwf Hv) as [H1 H2].
      rewrite filter_all_length in H1
        by (intros x Hx; apply in_without in Hx as [Hx Hxv]; auto).
      assert (Hdv : In (degree_of g v) (degree g))
        by (unfold degree; now apply in_map).
      pose proof (Hmax _ Hdv).
      unfold degree in Hin. apply in_map_iff in Hin as (u & Hu & Huv).
      pose proof (degree_of_lt_order g u Hwf Huv). lia.
Qed.

Lemma has_max_degree_order_minus_one_spec_witness :
  wf StarGraph3 /\ vertices StarGraph3 <> []
  /\ exists b, has_max_degree_order_minus_one StarGraph3 = Ok (py_bool b)
       /\ (b = true <->
           exists v, In v (vertices StarGraph3)
             /\ forall w, In w (vertices StarGraph3) -> w <> v ->
                  has_edge StarGraph3 v w = true).
Proof.
  assert (Hwf : wf StarGraph3) by (apply wfb_sound; reflexivity).
  assert (Hne : vertices StarGraph3 <> []) by discriminate.
  split; [exact Hwf|]. split; [exact Hne|].
  exact (proj2 (has_max_degree_order_minus_one_spec StarGraph3) Hwf Hne).
Defined.

(** ** The semidefinite program of [lovasz_theta] *)

Lemma length_range (lo hi : Z) : length (range lo hi) = Z.to_nat (hi - lo).
Proof. unfold range. now rewrite length_map, length_seq. Qed.

Lemma in_range (lo hi i : Z) : In i (range lo hi) <-> lo <= i < hi.
Proof.
  unfold range. rewrite in_map_iff. split.
  - intros (k & <- & Hk). apply in_seq in Hk. lia.
  - intros H. exists (Z.to_nat (i - lo)). split; [lia|].
    apply in_seq. lia.
Qed.

Lemma mapM_ok {A B} (f : A -> result B) (P : B -> Prop) (l : list A) :
  (forall x, In x l -> exists y, f x = Ok y /\ P y) ->
  exists ys, mapM f l = Ok ys /\ length ys = length l /\ Forall P ys.
Proof.
  induction l as [|x l IH]; intros H.
  - exists []. repeat split. constructor.
  - destruct (H x (or_introl eq_refl)) as (y & Hy & Py).
    destruct IH as (ys & Hys & Hlen & HP);
      [intros z Hz; apply H; now right|].
    exists (y :: ys). cbn [mapM]. rewrite Hy. cbn [bind]. rewrite Hys.
    cbn [bind length]. repeat split; [congruence|now constructor].
Qed.

Lemma in_pairs (vs : list label) (u w : label) :
  In (u, w) (pairs vs) -> In u vs /\ In w vs.
Proof.
  induction vs as [|x vs IH]; [intros []|].
  cbn [pairs]. intros H. apply in_app_or in H as [H|H].
  - apply in_map_iff in H as (y & [= <- <-] & Hy). split; [now left|now right].
  - destruct (IH H). split; now right.
Qed.

(** X17: On a graph whose vertices are the integers below its order the
    program is built without error, and every index it holds is inside
    the shape it declares: [c] has [d - 1] entries, the constraint matrix
    has rows below [n * n] and columns below [d - 1], and the right-hand
    side has [n * n] entries. *)
Theorem lovasz_theta_problem_shape (g : graph) :
  int_labelled g -> vertices g <> [] ->
  let gc := complement g in
  let n := order gc in
  let d := size gc + n in
  exists p, lovasz_theta_problem gc = Ok p
    /\ Z.of_nat (length (sdp_c p)) = d - 1
    /\ sdp_Gs_shape p = (n * n, d - 1)
    /\ Forall (fun t => 0 <= fst (fst t) < n * n /\ 0 <= snd (fst t) < d - 1)
              (sdp_Gs p)
    /\ Z.of_nat (length (sdp_Gs p)) = d - 1 + (n - 1)
    /\ Z.of_nat (length (sdp_hs p)) = n * n
    /\ sdp_hs_shape p = (n, n).
Proof.
  intros Hint Hne gc n d.
  assert (Hn : 1 <= n).
  { unfold n, gc, order, complement. cbn [vertices].
    destruct (vertices g); [contradiction|cbn [length]; lia]. }
  assert (Hm : 0 <= size gc) by (unfold size; lia).
  assert (Hrows : exists rows,
            mapM (fun e => a <- label_int (fst e) ;;
                           b <- label_int (snd e) ;; Ok (b + a * n))
                 (edges gc) = Ok rows
            /\ length rows = length (edges gc)
            /\ Forall (fun r => 0 <= r < n * n) rows).
  { apply mapM_ok. intros [u w] Hin. cbn [fst snd].
    unfold gc, complement in Hin. cbn [edges] in Hin.
    apply filter_In in Hin as [Hin _]. apply in_pairs in Hin as [Hu Hw].
    destruct (Hint u Hu) as (a & -> & Ha).
    destruct (Hint w Hw) as (b & -> & Hb).
    exists (b + a * n). split; [reflexivity|].
    change (order g) with n in Ha, Hb. nia. }
  destruct Hrows as (rows & Hrows & Hlen & Hbound).
  unfold lovasz_theta_problem. fold n. rewrite Hrows. cbn [bind].
  eexists. split; [reflexivity|]. cbn [sdp_c sdp_Gs sdp_Gs_shape sdp_hs sdp_hs_shape].
  replace (size gc + n - n) with (size gc) by lia.
  fold d.
  assert (Hsize : Z.of_nat (length rows) = size gc) by (unfold size; lia).
  split.
  { rewrite length_map, length_app, !repeat_length. unfold d. lia. }
  split; [reflexivity|]. split.
  { apply Forall_map. apply Forall_app. split.
    - apply Forall_map. apply Forall_forall. intros [r c] Hin. cbn [fst snd].
      pose proof (in_combine_l _ _ _ _ Hin) as Hr.
      pose proof (in_combine_r _ _ _ _ Hin) as Hc.
      split.
      + apply in_app_or in Hr as [Hr|Hr].
        * apply in_map_iff in Hr as (i & <- & Hi). apply in_range in Hi. nia.
        * rewrite Forall_forall in Hbound. now apply Hbound.
      + apply in_app_or in Hc as [Hc|Hc]; apply in_range in Hc;
          unfold d in *; lia.
    - apply Forall_map. apply Forall_forall. intros i Hi.
      apply in_range in Hi. cbn [fst snd]. unfold d. nia. }
  split.
  { rewrite length_map, length_app, !length_map, length_combine.
    rewrite !length_app, length_map, !length_range. unfold d. lia. }
  split; [|reflexivity].
  rewrite length_map, length_app, repeat_length. cbn [length]. nia.
Qed.

Lemma lovasz_theta_problem_shape_witness :
  int_labelled CycleGraph5 /\ vertices CycleGraph5 <> []
  /\ exists p, lovasz_theta_problem (complement CycleGraph5) = Ok p
       /\ Z.of_nat (length (sdp_c p)) = 9.
Proof.
  assert (Hint : int_labelled CycleGraph5).
  { intros v Hv. cbn in Hv.
    repeat (destruct Hv as [<-|Hv];
            [eexists; split; [reflexivity|cbn; lia]|]).
    destruct Hv. }
  assert (Hne : vertices CycleGraph5 <> []) by discriminate.
  split; [exact Hint|]. split; [exact Hne|].
  destruct (lovasz_theta_problem_shape CycleGraph5 Hint Hne)
    as (p & Hp & Hc & _).
  exists p. split; [exact Hp|exact Hc].
Defined.

(** ** The examples of the docstrings *)

Example graph6_Cx :
  from_graph6 "Cx" = graph_Cx
  /\ from_graph6 "EXCO"
     = mk_graph 6 [(0,2); (1,2); (2,3); (3,4); (3,5)]
  /\ complement CycleGraph4 = CycleGraph4_complement.
Proof. repeat split; reflexivity. Qed.

Example docstring_matching_number :
  map matching_number
      [edgeless 2; CompleteGraph3; PathGraph3; StarGraph3;
       from_graph6 "EXCO"; CycleGraph5; PetersenGraph]
  = [0; 1; 1; 1; 2; 2; 5].
Proof. vm_compute. reflexivity. Qed.

Example docstring_bounds :
  matching_lower_bound CompleteGraph3 = Ok 1%Q
  /\ matching_upper_bound CompleteGraph3 = Ok 2%Q
  /\ kwok CompleteGraph3 = Ok (3 # 2)%Q
  /\ kwok PathGraph3 = Ok 2%Q
  /\ min_degree_bound CompleteGraph3 = Ok 1%Q
  /\ min_degree_bound PathGraph4 = Ok 3%Q
  /\ annihilation_number CompleteGraph3 = Ok 2%Q
  /\ annihilation_number StarGraph3 = Ok 4%Q
  /\ borg CompleteGraph3 = Ok 2%Q.
Proof. repeat split; vm_compute; reflexivity. Qed.

Example residue_examples :
  residue PathGraph3 = Ok 2%Q
  /\ residue CompleteGraph3 = Ok 1%Q
  /\ residue PetersenGraph = Ok 3%Q
  /\ residue (edgeless 0) = Raise IndexError.
Proof. repeat split; vm_compute; reflexivity. Qed.

(** On the graph without vertices [max] of the empty degree list is the
    [ValueError]. *)
Example order_0_domain_errors :
  max_degree (edgeless 0) = Raise ValueError
  /\ kwok (edgeless 0) = Raise ValueError
  /\ borg (edgeless 0) = Raise ValueError
  /\ min_degree_bound (edgeless 0) = Raise ValueError.
Proof. repeat split; reflexivity. Qed.

Example docstring_independence_number :
  map independence_number
      [edgeless 2; CompleteGraph3; PathGraph3; StarGraph3;
       from_graph6 "EXCO"; CycleGraph5; PetersenGraph]
  = [2; 1; 2; 3; 4; 2; 4].
Proof. vm_compute. reflexivity. Qed.

Example docstring_caro_wei :
  caro_wei CompleteGraph3 = Ok 1%Q /\ caro_wei PathGraph3 = Ok (4 # 3)%Q.
Proof. split; vm_compute; reflexivity. Qed.
